(** * Speaker diarization by spectral clustering (recipes/AMI/Diarization/sd.py)

    A shallow embedding of the clustering and reconciliation pipeline of
    [sd.py]: affinity graph, spectral embedding, cluster assignment and
    the conversion of labels to speaker turns.

    Conventions.
    - Python floats (times, matrix entries) are rationals [Q]; rounding is
      not modelled.
    - A dense numpy array is its shape and its entries; a scipy sparse
      matrix is a coordinate list.
    - A Python exception is a value of [exn]; a call that may raise returns
      a [result].
    - Numerical routines of scipy and the helpers of the [diarization]
      module whose text is not part of [sd.py] are variables of the section
      that uses them, or are modelled from the specification where a
      property is about them; each such definition says so. *)

From Stdlib Require Import List Arith ZArith QArith Qminmax Qabs Lia Lqa Bool.
From Stdlib Require Import Ascii String DecimalString Permutation Sorted.
Import ListNotations.

Local Open Scope Q_scope.

(** ** Exceptions and results *)

Inductive exn : Type :=
| IndexError
| ValueError
| TypeError
| ConfigurationError
| DataError
| OSError
| UnboundLocalError.

Inductive result (A : Type) : Type :=
| OK (a : A)
| Raise (e : exn).
Arguments OK {A} a.
Arguments Raise {A} e.

Definition bind {A B : Type} (r : result A) (f : A -> result B) : result B :=
  match r with
  | OK a => f a
  | Raise e => Raise e
  end.

Notation "'do' x <- r ; k" := (bind r (fun x => k))
  (at level 10, x name, r at level 100, k at level 200).

Definition is_ok {A : Type} (r : result A) : bool :=
  match r with OK _ => true | Raise _ => false end.

(** ** Strings: [str.rsplit(sep, maxsplit)] for a one-character separator *)

Module PyStr.

(** [break_at c l] cuts [l] at the first occurrence of [c]:
    [Some (before, after)], or [None] when [c] does not occur. *)
Fixpoint break_at (c : ascii) (l : list ascii) : option (list ascii * list ascii) :=
  match l with
  | [] => None
  | x :: tl =>
      if Ascii.eqb x c then Some ([], tl)
      else match break_at c tl with
           | Some (b, a) => Some (x :: b, a)
           | None => None
           end
  end.

(** Splitting the reversed text from its start is splitting the text from
    its right end; the pieces come out last first, each reversed. *)
Fixpoint rsplit_rev (c : ascii) (maxsplit : nat) (r : list ascii) : list (list ascii) :=
  match maxsplit with
  | O => [rev r]
  | S n =>
      match break_at c r with
      | Some (b, a) => rev b :: rsplit_rev c n a
      | None => [rev r]
      end
  end.

Definition rsplit (c : ascii) (maxsplit : nat) (s : string) : list string :=
  map string_of_list_ascii
      (rev (rsplit_rev c maxsplit (rev (list_ascii_of_string s)))).

(** [str(n)] of a non-negative integer. *)
Definition str_of_nat (n : nat) : string :=
  NilZero.string_of_uint (Nat.to_uint n).

End PyStr.

(** ** Entries and turns

    One row [[rec_id, sseg_start, sseg_end, spkr_id]] of the list [lol] of
    [do_spec_clustering]. *)

Record entry : Type := mkEntry {
  rec_id : string;
  sseg_start : Q;
  sseg_end : Q;
  spkr_id : string
}.

Definition set_start (e : entry) (s : Q) : entry :=
  mkEntry (rec_id e) s (sseg_end e) (spkr_id e).

Definition set_end (e : entry) (t : Q) : entry :=
  mkEntry (rec_id e) (sseg_start e) t (spkr_id e).

(** A stable insertion sort on a rational key.  An element is put in
    front of the elements of the sorted rest whose key is the same or
    greater, so equal keys keep their order. *)
Fixpoint insert_by {A : Type} (key : A -> Q) (e : A) (l : list A) : list A :=
  match l with
  | [] => [e]
  | x :: tl =>
      if Qle_bool (key e) (key x) then e :: x :: tl
      else x :: insert_by key e tl
  end.

Definition sort_by {A : Type} (key : A -> Q) (l : list A) : list A :=
  fold_right (insert_by key) [] l.

(** [lol.sort(key=lambda x: float(x[1]))] *)
Definition sort_by_start (l : list entry) : list entry :=
  sort_by sseg_start l.

Module Diar.

(** Modelled from the spec: the failure clause of the segment reconciler
    ([diarization.merge_ssegs_same_speaker] and
    [diarization.distribute_overlap] are not part of [sd.py]).  Entries of
    one call name one recording, and every entry ends after it starts. *)
Definition interval_ok (e : entry) : bool :=
  negb (Qle_bool (sseg_end e) (sseg_start e)).

Definition same_recording (l : list entry) : bool :=
  match l with
  | [] => true
  | e :: tl => forallb (fun x => String.eqb (rec_id x) (rec_id e)) tl
  end.

Definition entries_ok (l : list entry) : bool :=
  forallb interval_ok l && same_recording l.

(** Modelled from the spec: pass 1 of the segment reconciler
    ([diarization.merge_ssegs_same_speaker]).  Consecutive entries of one
    speaker are merged into one turn from the least start to the greatest
    end.  The spec leaves the adjacency tolerance open: [tol] is the gap
    up to which two entries of one speaker still count as adjacent. *)
Definition mergeable (tol : Q) (cur nxt : entry) : bool :=
  String.eqb (spkr_id cur) (spkr_id nxt)
  && Qle_bool (sseg_start nxt) (sseg_end cur + tol).

Definition merge_two (cur nxt : entry) : entry :=
  mkEntry (rec_id cur)
          (Qmin (sseg_start cur) (sseg_start nxt))
          (Qmax (sseg_end cur) (sseg_end nxt))
          (spkr_id cur).

Fixpoint merge_from (tol : Q) (cur : entry) (rest : list entry) : list entry :=
  match rest with
  | [] => [cur]
  | nxt :: tl =>
      if mergeable tol cur nxt then merge_from tol (merge_two cur nxt) tl
      else cur :: merge_from tol nxt tl
  end.

Definition merge_pass (tol : Q) (l : list entry) : list entry :=
  match l with
  | [] => []
  | e :: tl => merge_from tol e tl
  end.

Definition merge_ssegs_same_speaker (tol : Q) (l : list entry) : result (list entry) :=
  if entries_ok l then OK (merge_pass tol l) else Raise DataError.

(** Modelled from the spec: pass 2 of the segment reconciler
    ([diarization.distribute_overlap]).  For each pair of neighbours with
    [s2 < e1] the first is cut to end, and the second to start, at the
    midpoint [(s2 + e1) / 2]; other pairs are left as they are.  The pass
    goes left to right: the second turn of a pair, with its new start, is
    the first turn of the next pair. *)
Definition overlapped (cur nxt : entry) : bool :=
  negb (Qle_bool (sseg_end cur) (sseg_start nxt)).

Definition midpoint (cur nxt : entry) : Q :=
  (sseg_start nxt + sseg_end cur) / 2.

Fixpoint distribute_from (cur : entry) (rest : list entry) : list entry :=
  match rest with
  | [] => [cur]
  | nxt :: tl =>
      if overlapped cur nxt then
        set_end cur (midpoint cur nxt)
          :: distribute_from (set_start nxt (midpoint cur nxt)) tl
      else cur :: distribute_from nxt tl
  end.

Definition distribute_overlap (l : list entry) : list entry :=
  match l with
  | [] => []
  | e :: tl => distribute_from e tl
  end.

End Diar.

(** Lines 248-257 of [do_spec_clustering]: sort on the start time, merge
    the entries of one speaker, distribute the overlaps. *)
Definition reconcile (tol : Q) (lol : list entry) : result (list entry) :=
  let lol := sort_by_start lol in
  do lol <- Diar.merge_ssegs_same_speaker tol lol;
  OK (Diar.distribute_overlap lol).

(** ** Sparse matrices in coordinate form

    A square matrix of side [dim]; an entry is the sum of the values stored
    under its coordinates, as scipy sums duplicates. *)

Record sparse : Type := mkSparse {
  dim : nat;
  coo : list (nat * nat * Q)
}.

Definition coo_entry (l : list (nat * nat * Q)) (i j : nat) : Q :=
  fold_right
    (fun t acc =>
       match t with
       | (r, c, v) => if (r =? i)%nat && (c =? j)%nat then v + acc else acc
       end) 0 l.

Definition sp_entry (A : sparse) (i j : nat) : Q := coo_entry (coo A) i j.

Definition sp_transpose (A : sparse) : sparse :=
  mkSparse (dim A) (map (fun t => match t with (r, c, v) => (c, r, v) end) (coo A)).

Definition sp_add (A B : sparse) : sparse :=
  mkSparse (dim A) (coo A ++ coo B).

Definition sp_scale (k : Q) (A : sparse) : sparse :=
  mkSparse (dim A) (map (fun t => match t with (r, c, v) => (r, c, k * v) end) (coo A)).

(** ** Dense two-dimensional arrays *)

Record ndarray : Type := mkArr {
  nrows : nat;
  ncols : nat;
  item : nat -> nat -> Q
}.

(** [a.T] *)
Definition transpose (a : ndarray) : ndarray :=
  mkArr (ncols a) (nrows a) (fun i j => item a j i).

(** [a[n::-1]]: the rows from index [n], or from the last one when [n] is
    past it, back to the first. *)
Definition rows_back_from (n : nat) (a : ndarray) : ndarray :=
  mkArr (Nat.min (S n) (nrows a)) (ncols a)
        (fun i j => item a (Nat.min n (nrows a - 1) - i) j).

(** [a[lo:hi]] *)
Definition rows_slice (lo hi : nat) (a : ndarray) : ndarray :=
  mkArr (Nat.min hi (nrows a) - Nat.min lo (nrows a)) (ncols a)
        (fun i j => item a (Nat.min lo (nrows a) + i) j).

(** [a / dd] for a one-dimensional [dd], with numpy's broadcasting of the
    last axis. *)
Definition div_vec (a : ndarray) (dd : list Q) : result ndarray :=
  if (List.length dd =? ncols a)%nat then
    OK (mkArr (nrows a) (ncols a) (fun i j => item a i j / nth j dd 0))
  else if (List.length dd =? 1)%nat then
    OK (mkArr (nrows a) (ncols a) (fun i j => item a i j / nth 0 dd 0))
  else if (ncols a =? 1)%nat then
    OK (mkArr (nrows a) (List.length dd) (fun i j => item a i 0 / nth j dd 0))
  else Raise ValueError.

Definition Qlt_bool (x y : Q) : bool := negb (Qle_bool y x).

Module SignFlip.

(** Modelled from the spec: [diarization.deterministic_vector_sign_flip]
    is not part of [sd.py].  For each row (one eigenvector) the entry of
    largest magnitude is looked up, the first one on a tie, and the row is
    negated when that entry is negative, which makes it positive. *)
Definition argmax_abs (a : ndarray) (i : nat) : nat :=
  fold_left
    (fun best j => if Qlt_bool (Qabs (item a i best)) (Qabs (item a i j)) then j else best)
    (seq 0 (ncols a)) 0%nat.

Definition deterministic_vector_sign_flip (a : ndarray) : ndarray :=
  mkArr (nrows a) (ncols a)
        (fun i j =>
           if Qlt_bool (item a i (argmax_abs a i)) 0 then - item a i j
           else item a i j).

End SignFlip.

Module Knn.

(** Modelled from the spec: the directed nearest-neighbour adjacency of the
    affinity graph builder ([sklearn.neighbors.kneighbors_graph] is not part
    of [sd.py]).  Every point gets an edge of weight 1 to each of its
    [neighbors] nearest points in Euclidean distance, itself among them
    when [include_self]; with [neighbors] at least the number of points
    every pair is connected.  The builder fails with [ConfigurationError]
    when [neighbors < 1] or fewer than 2 points are given. *)
Definition sq_dist (X : ndarray) (i j : nat) : Q :=
  fold_right
    (fun d acc => (item X i d - item X j d) * (item X i d - item X j d) + acc)
    0 (seq 0 (ncols X)).

Definition candidates (X : ndarray) (include_self : bool) (i : nat) : list nat :=
  filter (fun j => include_self || negb (j =? i)%nat) (seq 0 (nrows X)).

Definition nearest (X : ndarray) (neighbors : nat) (include_self : bool) (i : nat)
  : list nat :=
  firstn neighbors (sort_by (sq_dist X i) (candidates X include_self i)).

Definition knn_graph (X : ndarray) (neighbors : nat) (include_self : bool) : sparse :=
  mkSparse (nrows X)
    (flat_map (fun i => map (fun j => (i, j, 1)) (nearest X neighbors include_self i))
              (seq 0 (nrows X))).

Definition kneighbors_graph (X : ndarray) (n_neighbors : Z) (include_self : bool)
  : result sparse :=
  if (n_neighbors <? 1)%Z || (nrows X <? 2)%nat then Raise ConfigurationError
  else OK (knn_graph X (Z.to_nat n_neighbors) include_self).

End Knn.

(** Line 279 of [perform_sc]: [0.5 * (connectivity + connectivity.T)] *)
Definition symmetrize (connectivity : sparse) : sparse :=
  sp_scale (1 # 2) (sp_add connectivity (sp_transpose connectivity)).

(** ** The pipeline of [sd.py] *)

(** The hyperparameters read through [params]. *)
Record Params : Type := mkParams {
  p_n_neighbors : Z;
  p_include_self : bool;
  p_seed : Z
}.

(** The fields of a [Spec_Cluster] object that the recipe sets or reads. *)
Record Spec_Cluster : Type := mkSpecCluster {
  n_clusters : nat;
  assign_labels : string;
  random_state : option Z;
  affinity : string;
  affinity_matrix_ : option sparse;
  labels_ : list nat
}.

(** The statistics object of one recording: embeddings and segment names. *)
Record StatObject : Type := mkStat {
  stat1 : ndarray;
  segset : list string
}.

Definition graph_warning : string :=
  "Graph is not fully connected, spectral embedding may not work as expected.".

(** ** Notions used in the statements *)

(** The recording id that one turn of the loop parses from a segment name. *)
Definition parsed_rec_id (sub_seg : string) : string :=
  nth 0 (PyStr.rsplit "_" 2 sub_seg) ""%string.

(** The recording id in force when turn [i] of the loop builds its speaker
    id: the caller's at first, afterwards the one parsed a turn earlier. *)
Definition rec_id_before (rec0 : string) (subseg_ids : list string) (i : nat) : string :=
  match i with
  | O => rec0
  | S j => parsed_rec_id (nth j subseg_ids ""%string)
  end.

Definition dummy_entry : entry := mkEntry "" 0 0 "".

(** Where a pair of neighbours ends and starts after the overlap pass. *)
Definition cut_end (cur nxt : entry) : Q :=
  if Diar.overlapped cur nxt then Diar.midpoint cur nxt else sseg_end cur.

Definition cut_start (cur nxt : entry) : Q :=
  if Diar.overlapped cur nxt then Diar.midpoint cur nxt else sseg_start nxt.

(** The two entries of the midpoint scenario of the spec, and what is
    expected of them. *)
Definition overlap_in : list entry :=
  [mkEntry "rec" 0 2 "spkrA"; mkEntry "rec" 1 3 "spkrB"].

Definition overlap_out : list entry :=
  [mkEntry "rec" 0 (3 # 2) "spkrA"; mkEntry "rec" (3 # 2) 3 "spkrB"].

(** The non-overlap invariant as the spec words it: any two turns at
    different places of the output lie apart in time. *)
Definition pairwise_apart (out : list entry) : Prop :=
  forall i j, i <> j -> (i < List.length out)%nat -> (j < List.length out)%nat ->
    sseg_end (nth i out dummy_entry) <= sseg_start (nth j out dummy_entry) \/
    sseg_end (nth j out dummy_entry) <= sseg_start (nth i out dummy_entry).

(** Three segments of one recording, sorted by start: a long segment of
    one speaker, a short segment of another inside it, and the next
    segment of the first speaker starting before the short one ends. *)
Definition nested_in : list entry :=
  [mkEntry "rec" 0 3 "rec_0"; mkEntry "rec" 1 2 "rec_1";
   mkEntry "rec" (3 # 2) (9 # 2) "rec_0"].

(** ** Stand-ins for the numerical routines

    Small executable functions of the right types, used to run the
    pipeline on concrete inputs.  They are no models of scipy or sklearn
    beyond what their comments say; the theorems of the pipeline hold for
    any routines. *)

Module Sample.

Definition seed_state (s : Z) : nat := Z.to_nat s.

(** Labels that depend on the state of the generator, which advances. *)
Definition centroid_partition (maps : ndarray) (k : nat) (st : nat) (n_init : nat)
  : list nat * nat :=
  (map (fun i => Nat.modulo (i + st) k) (seq 0 (nrows maps)), S st).

Definition degree (A : sparse) (i : nat) : Q :=
  fold_right Qplus 0 (map (fun j => sp_entry A i j) (seq 0 (dim A))).

Definition csgraph_laplacian (A : sparse) (normed : bool) : sparse * list Q :=
  (mkSparse (dim A)
     (map (fun i => (i, i, degree A i)) (seq 0 (dim A)) ++ coo (sp_scale (-1) A)),
   map (fun i => if Qeq_bool (degree A i) 0 then 1 else degree A i) (seq 0 (dim A))).

Definition set_diag (L : sparse) (v : Q) (normed : bool) : sparse :=
  if normed then
    mkSparse (dim L)
      (map (fun i => (i, i, v)) (seq 0 (dim L))
       ++ filter (fun t => match t with (r, c, _) => negb (r =? c)%nat end) (coo L))
  else L.

(** As scipy's [eigsh] does on a sparse matrix, the stand-in refuses to
    give as many eigenvectors as the matrix has rows, or more, with
    [TypeError]. *)
Definition eigsh (L : sparse) (k : nat) : result (list Q * ndarray) :=
  if (dim L <=? k)%nat then Raise TypeError
  else OK (repeat 1 k,
           mkArr (dim L) k (fun i j => inject_Z (Z.of_nat i - Z.of_nat j) + sp_entry L i i)).

(** Reachability from node 0 along the non-zero entries. *)
Definition successors (A : sparse) (i : nat) : list nat :=
  map (fun t => snd (fst t))
      (filter (fun t => match t with (r, _, v) => (r =? i)%nat && negb (Qeq_bool v 0) end)
              (coo A)).

Fixpoint reach (A : sparse) (fuel : nat) (seen : list nat) : list nat :=
  match fuel with
  | O => seen
  | S f => reach A f (nodup Nat.eq_dec (seen ++ flat_map (successors A) seen))
  end.

Definition graph_is_connected (A : sparse) : bool :=
  forallb (fun i => existsb (Nat.eqb i) (reach A (dim A) [0%nat])) (seq 0 (dim A)).

(** Decimal literals [d+] and [d*.d*] with at least one digit. *)
Definition digit (c : ascii) : option Z :=
  let n := nat_of_ascii c in
  if (48 <=? n)%nat && (n <=? 57)%nat then Some (Z.of_nat (n - 48)) else None.

Fixpoint digits (l : list ascii) (acc : Z) : option Z :=
  match l with
  | [] => Some acc
  | c :: tl =>
      match digit c with
      | Some d => digits tl (10 * acc + d)%Z
      | None => None
      end
  end.

Definition py_float (s : string) : option Q :=
  let l := list_ascii_of_string s in
  match PyStr.break_at "." l with
  | Some (ip, fp) =>
      match ip ++ fp, digits ip 0, digits fp 0 with
      | _ :: _, Some a, Some b =>
          Some (Qred (inject_Z a + Qmake b (Z.to_pos (10 ^ Z.of_nat (List.length fp)))))
      | _, _, _ => None
      end
  | None =>
      match l, digits l 0 with
      | _ :: _, Some a => Some (inject_Z a)
      | _, _ => None
      end
  end.

(** Three one-dimensional embeddings with their segment names. *)
Definition embeddings : ndarray :=
  mkArr 3 1 (fun i _ => nth i [0; 1; 10] 0).

Definition recording : StatObject :=
  mkStat embeddings ["ES2011a_0.0_2.0"; "ES2011a_1.0_3.0"; "ES2011a_3.5_4.0"]%string.

End Sample.

Definition sample_params : Params := mkParams 1 false 1234.

(** The affinity of the three sample points, and of four points in two
    far pairs, whose graph falls into two components. *)
Definition sample_affinity : sparse :=
  symmetrize (Knn.knn_graph Sample.embeddings 1 false).

Definition split_affinity : sparse :=
  symmetrize (Knn.knn_graph (mkArr 4 1 (fun i _ => nth i [0; 1; 10; 11] 0)) 1 false).

(** ** The recording ids of a dataset (lines 309-312 of [diarize_dataset]) *)

Module Csv.

(** [str.isspace] on one character of the Latin-1 range. *)
Definition is_space (c : ascii) : bool :=
  let n := nat_of_ascii c in
  ((9 <=? n) && (n <=? 13) || (28 <=? n) && (n <=? 32)
   || (n =? 133) || (n =? 160))%nat.

Fixpoint drop_spaces (l : list ascii) : list ascii :=
  match l with
  | [] => []
  | c :: tl => if is_space c then drop_spaces tl else l
  end.

(** [s.rstrip()] *)
Definition rstrip (s : string) : string :=
  string_of_list_ascii (rev (drop_spaces (rev (list_ascii_of_string s)))).

(** [s.split("_")[0]]: the text before the first underscore, all of it
    when there is none. *)
Definition first_field (s : string) : string :=
  match PyStr.break_at "_" (list_ascii_of_string s) with
  | Some (b, _) => string_of_list_ascii b
  | None => s
  end.

(** [[row[0].rstrip().split("_")[0] for row in full_csv]]; an empty row
    has no [row[0]]. *)
Fixpoint rec_id_column (full_csv : list (list string)) : result (list string) :=
  match full_csv with
  | [] => OK []
  | row :: rows =>
      do c <- match row with
              | [] => Raise IndexError
              | c :: _ => OK c
              end;
      do tl <- rec_id_column rows;
      OK (first_field (rstrip c) :: tl)
  end.

(** [list.sort()] on strings, which Python compares by code point. *)
Fixpoint insert_str (s : string) (l : list string) : list string :=
  match l with
  | [] => [s]
  | x :: tl => if String.leb s x then s :: x :: tl else x :: insert_str s tl
  end.

Definition sort_str (l : list string) : list string :=
  fold_right insert_str [] l.

(** [all_rec_ids = list(set(A[1:])); all_rec_ids.sort()].  The set is
    listed here without repetition, in the order [nodup] leaves; the sorted
    list does not depend on that order. *)
Definition all_rec_ids (full_csv : list (list string)) : result (list string) :=
  do A <- rec_id_column full_csv;
  OK (sort_str (nodup string_dec (tl A))).

(** [line[:-1]] and [x.startswith("SPKR-INFO")] of lines 299-307. *)
Definition drop_last (s : string) : string :=
  string_of_list_ascii (removelast (list_ascii_of_string s)).

Definition spkr_info_of (lines : list string) : list string :=
  filter (String.prefix "SPKR-INFO") (map drop_last lines).

End Csv.

(** [sep.join(pieces)] for a one-character separator. *)
Fixpoint join_chars (c : ascii) (pieces : list (list ascii)) : list ascii :=
  match pieces with
  | [] => []
  | [p] => p
  | p :: tl => p ++ c :: join_chars c tl
  end.

(** What [PyStr.rsplit_rev] is expected to return, in its own order (last
    piece first). *)
Definition rsplit_rev_ok (c : ascii) (n : nat) (r : list ascii) : Prop :=
  let ps := PyStr.rsplit_rev c n r in
  (1 <= List.length ps)%nat /\ (List.length ps <= S n)%nat /\
  rev r = join_chars c (rev ps) /\
  forall p, In p (removelast ps) -> ~ In c p.

(** Python's order on strings. *)
Definition str_le (a b : string) : Prop := String.leb a b = true.

Definition str_lt (a b : string) : Prop := String.ltb a b = true.

(** The recording id of a row of the csv, read off its first cell. *)
Definition row_rec_id (row : list string) : string :=
  Csv.first_field (Csv.rstrip (hd ""%string row)).

(** ** Tuning the number of speakers (the end of [dev_tuner]) *)

Module PyList.

(** [min(l)]: the first of the least elements; [ValueError] on an empty
    list. *)
Fixpoint min_from (m : Q) (l : list Q) : Q :=
  match l with
  | [] => m
  | x :: tl => min_from (if Qlt_bool x m then x else m) tl
  end.

Definition min (l : list Q) : result Q :=
  match l with
  | [] => Raise ValueError
  | x :: tl => OK (min_from x tl)
  end.

(** [l.index(v)]: the first place that holds a value equal to [v];
    [ValueError] when there is none. *)
Fixpoint index (v : Q) (l : list Q) : result nat :=
  match l with
  | [] => Raise ValueError
  | x :: tl => if Qeq_bool x v then OK 0%nat else do i <- index v tl; OK (S i)
  end.

End PyList.

(** Line 437: [DER_list.index(min(DER_list)) + 1]. *)
Definition tuned_n_lambdas (DER_list : list Q) : result nat :=
  do m <- PyList.min DER_list;
  do i <- PyList.index m DER_list;
  OK (i + 1)%nat.

(** ** The statistics object of [embedding_computation_loop] *)

(** [StatObject_SB] as line 123 builds it; [start] and [stop] are one
    array of [None], and [stat0] is [np.array] of a list of rows. *)
Record StatObject_SB : Type := mkStatSB {
  sb_modelset : list string;
  sb_segset : list string;
  sb_start : list (option Q);
  sb_stop : list (option Q);
  sb_stat0 : list (list Q);
  sb_stat1 : ndarray
}.

(** The shape of [np.array(rows)] for rows of one length: with no row the
    array has one dimension, of length 0. *)
Definition np_shape {A : Type} (rows : list (list A)) : list nat :=
  match rows with
  | [] => [0%nat]
  | r :: _ => [List.length rows; List.length r]
  end.

(** [np.concatenate((a, b), axis=0)]: the column counts must agree. *)
Definition vconcat (a b : ndarray) : result ndarray :=
  if (ncols a =? ncols b)%nat then
    OK (mkArr (nrows a + nrows b) (ncols a)
              (fun i j => if (i <? nrows a)%nat then item a i j
                          else item b (i - nrows a) j))
  else Raise ValueError.

(** [np.empty(shape=[0, emb_dim])], and the rows [[[1.0]] * n] of line
    121. *)
Definition empty_rows (emb_dim : nat) : ndarray := mkArr 0 emb_dim (fun _ _ => 0).

Definition ones_column (n : nat) : list (list Q) := repeat [1] n.

(** Entry [(p, j)] of the arrays of a list put one under the other. *)
Fixpoint stack_item (embs : list ndarray) (p j : nat) : Q :=
  match embs with
  | [] => 0
  | e :: tl => if (p <? nrows e)%nat then item e p j else stack_item tl (p - nrows e) j
  end.

(** [os.path.isfile] and [pickle.load] on the saved statistics. *)
Fixpoint lookup_stat (stat_file : string) (pickles : list (string * StatObject_SB))
  : option StatObject_SB :=
  match pickles with
  | [] => None
  | (f, obj) :: tl => if String.eqb f stat_file then Some obj else lookup_stat stat_file tl
  end.

(** More sample data: a csv with a header and two recordings, a recording
    whose segment names have no fields, error rates for four candidate
    counts, and two batches of embeddings three wide. *)
Module SampleData.

Definition csv_one : list (list string) :=
  [["ID"; "duration"]; ["ES2011a_0.0_2.0"; "2.0"]; ["ES2011a_1.0_3.0 "; "2.0"]]%string.

Definition csv_three : list (list string) :=
  [["ID"; "duration"]; ["ES2011c_0.0_2.0"; "2.0"]; ["ES2011a_0.0_2.0"; "2.0"];
   ["ES2011b_0.0_1.0"; "1.0"]; ["ES2011a_1.0_3.0"; "2.0"]]%string.


Definition broken_recording : StatObject :=
  mkStat Sample.embeddings ["x"; "y"; "z"]%string.

Definition stat_of (rec : string) : StatObject :=
  if String.eqb rec "ES2011b" then broken_recording else Sample.recording.

Definition error_rates : list Q := [3; 1; 1; 2].

Definition batch (n d : nat) (v : Q) : ndarray := mkArr n d (fun i _ => v + inject_Z (Z.of_nat i)).

Definition batches : list (list string * ndarray) :=
  [(["a"; "b"]%string, batch 2 3 10); (["c"]%string, batch 1 3 20)].

Definition bad_batches : list (list string * ndarray) :=
  [(["a"; "b"]%string, batch 2 3 10); (["c"]%string, batch 1 4 20)].

(** The normalizer counts the batches it has seen. *)
Definition compute (ns : nat) (wavs : ndarray) : ndarray * nat := (wavs, S ns).

End SampleData.

Section Pipeline.

(** State of a numpy random generator, and what the recipe calls of the
    numerical libraries. *)
Variable RandomState : Type.

(** [np.random.RandomState(seed)] *)
Variable seed_state : Z -> RandomState.

(** The centroid partitioning inside [k_means]: labels, one per row, and
    the state in which it leaves the generator. *)
Variable centroid_partition :
  ndarray -> nat -> RandomState -> nat -> list nat * RandomState.

(** [diar.graph_is_connected], [scipy.sparse.csgraph.laplacian] with
    [return_diag=True], [diar.set_diag] and
    [scipy.sparse.linalg.eigsh(., k, sigma=1.0, which="LM")]. *)
Variable graph_is_connected : sparse -> bool.
Variable csgraph_laplacian : sparse -> bool -> sparse * list Q.
Variable set_diag : sparse -> Q -> bool -> sparse.
Variable eigsh : sparse -> nat -> result (list Q * ndarray).

(** Python's [float] on a string; [None] is a [ValueError]. *)
Variable py_float : string -> option Q.

(** The adjacency tolerance of the merge pass. *)
Variable merge_tolerance : Q.

Variable params : Params.

(** What a run can change: the process-wide generator seeded at line 38,
    the warnings issued, the log, and the files written. *)
Record world : Type := mkWorld {
  rng : RandomState;
  warnings : list string;
  log : list string;
  files : list (string * list entry)
}.

Definition M (A : Type) : Type := world -> result A * world.

Definition ret {A : Type} (a : A) : M A := fun w => (OK a, w).

Definition bindM {A B : Type} (m : M A) (f : A -> M B) : M B :=
  fun w =>
    match m w with
    | (OK a, w') => f a w'
    | (Raise e, w') => (Raise e, w')
    end.

Notation "x <-- m ;; k" := (bindM m (fun x => k))
  (at level 61, m at next level, right associativity).

Definition lift {A : Type} (r : result A) : M A := fun w => (r, w).

Definition warn (msg : string) : M unit :=
  fun w => (OK tt, mkWorld (rng w) (warnings w ++ [msg]) (log w) (files w)).

Definition logger_info (msg : string) : M unit :=
  fun w => (OK tt, mkWorld (rng w) (warnings w) (log w ++ [msg]) (files w)).

(** Whether [open(path, "w")] succeeds: the directory is there and may
    be written to. *)
Variable writable : string -> bool.

(** [diar.write_rttm]: the file is opened for writing, which raises
    [OSError] when it cannot be, and the turns are written to it. *)
Definition write_rttm (lol : list entry) (out_rttm_file : string) : M unit :=
  fun w =>
    if writable out_rttm_file
    then (OK tt, mkWorld (rng w) (warnings w) (log w)
                         (files w ++ [(out_rttm_file, lol)]))
    else (Raise OSError, w).

(** A generator object: the process-wide one, shared by reference, or one
    of its own. *)
Inductive generator : Type :=
| Ambient
| Own (st : RandomState).

(** Modelled from the spec: [diarization.check_random_state] is not part of
    [sd.py].  Without a seed the generator is the ambient process-wide one
    of the spec's design notes; a seed gives a generator of its own. *)
Definition check_random_state (seed : option Z) : generator :=
  match seed with
  | None => Ambient
  | Some s => Own (seed_state s)
  end.

(** Modelled from the spec: the cluster assigner ([sklearn]'s [k_means] is
    not part of [sd.py]).  It fails with [ConfigurationError] when there
    are more clusters than points, and otherwise partitions the points,
    drawing from the generator it is given. *)
Definition k_means (maps : ndarray) (k : nat) (g : generator) (n_init : nat)
  : M (list nat) :=
  fun w =>
    if (nrows maps <? k)%nat then (Raise ConfigurationError, w)
    else match g with
         | Ambient =>
             let (labels, st) := centroid_partition maps k (rng w) n_init in
             (OK labels, mkWorld st (warnings w) (log w) (files w))
         | Own st0 =>
             (OK (fst (centroid_partition maps k st0 n_init)), w)
         end.

(** [spectral_embedding_sb], lines 147-189. *)
Definition spectral_embedding_sb (adjacency : sparse) (n_components : nat)
    (norm_laplacian drop_first : bool) : M ndarray :=
  let n_components := if drop_first then (n_components + 1)%nat else n_components in
  _ <-- (if negb (graph_is_connected adjacency) then warn graph_warning else ret tt) ;;
  let (laplacian, dd) := csgraph_laplacian adjacency norm_laplacian in
  let laplacian := set_diag laplacian 1 norm_laplacian in
  let laplacian := sp_scale (-1) laplacian in
  vd <-- lift (eigsh laplacian n_components) ;;
  let diffusion_map := snd vd in
  let embedding := rows_back_from n_components (transpose diffusion_map) in
  embedding <-- (if norm_laplacian then lift (div_vec embedding dd) else ret embedding) ;;
  let embedding := SignFlip.deterministic_vector_sign_flip embedding in
  if drop_first then ret (transpose (rows_slice 1 n_components embedding))
  else ret (transpose (rows_slice 0 n_components embedding)).

(** [spectral_clustering_sb], lines 192-214; [n_components] and
    [random_state] default to [None], [n_init] to 10. *)
Definition spectral_clustering_sb (affinity_m : sparse) (n_clusters_ : nat)
    (n_components : option nat) (random_state_ : option Z) (n_init : nat)
  : M (list nat) :=
  let random_state_ := check_random_state random_state_ in
  let n_components :=
    match n_components with None => n_clusters_ | Some c => c end in
  maps <-- spectral_embedding_sb affinity_m n_components true false ;;
  k_means maps n_clusters_ random_state_ n_init.

(** Lines 273-279 of [perform_sc]: the affinity matrix. *)
Definition affinity_of (X : ndarray) : result sparse :=
  do connectivity <-
     Knn.kneighbors_graph X (p_n_neighbors params) (p_include_self params);
  OK (symmetrize connectivity).

(** [Spec_Cluster.perform_sc], lines 264-287. *)
Definition perform_sc (self : Spec_Cluster) (X : ndarray) : M Spec_Cluster :=
  aff <-- lift (affinity_of X) ;;
  labels <-- spectral_clustering_sb aff (n_clusters self) None None 10 ;;
  ret (mkSpecCluster (n_clusters self) (assign_labels self) (random_state self)
                     (affinity self) (Some aff) labels).

(** One turn of the loop of lines 235-246: the running recording id and
    the list built so far go in and come out. *)
Definition label_step (labels : list nat) (subseg_ids : list string)
    (st : string * list entry) (i : nat) : result (string * list entry) :=
  let (rec_id_, lol) := st in
  let spkr := (rec_id_ ++ "_" ++ PyStr.str_of_nat (nth i labels 0%nat))%string in
  do sub_seg <- match nth_error subseg_ids i with
                | Some s => OK s | None => Raise IndexError end;
  let splitted := PyStr.rsplit "_" 2 sub_seg in
  let rec_id_ := nth 0 splitted ""%string in
  do s1 <- match nth_error splitted 1 with
           | Some s => OK s | None => Raise IndexError end;
  do sseg_start_ <- match py_float s1 with
                    | Some q => OK q | None => Raise ValueError end;
  do s2 <- match nth_error splitted 2 with
           | Some s => OK s | None => Raise IndexError end;
  do sseg_end_ <- match py_float s2 with
                  | Some q => OK q | None => Raise ValueError end;
  OK (rec_id_, lol ++ [mkEntry rec_id_ sseg_start_ sseg_end_ spkr]).

Fixpoint label_loop (labels : list nat) (subseg_ids : list string)
    (range : list nat) (st : string * list entry) : result (string * list entry) :=
  match range with
  | [] => OK st
  | i :: tl =>
      do st' <- label_step labels subseg_ids st i;
      label_loop labels subseg_ids tl st'
  end.

(** Lines 231-246: labels to speaker boundaries. *)
Definition labels_to_boundaries (labels : list nat) (subseg_ids : list string)
    (rec_id_ : string) : result (string * list entry) :=
  label_loop labels subseg_ids (seq 0 (List.length labels)) (rec_id_, []).

(** [do_spec_clustering], lines 217-260, up to the turns it writes. *)
Definition diarize (diary_obj_eval : StatObject) (rec_id_ : string) (k : nat)
  : M (string * list entry) :=
  let clust_obj :=
    mkSpecCluster k "kmeans" (Some (p_seed params)) "nearest_neighbors" None [] in
  clust_obj <-- perform_sc clust_obj (stat1 diary_obj_eval) ;;
  let labels := labels_ clust_obj in
  st <-- lift (labels_to_boundaries labels (segset diary_obj_eval) rec_id_) ;;
  lol <-- lift (reconcile merge_tolerance (snd st)) ;;
  ret (fst st, lol).

Definition do_spec_clustering (diary_obj_eval : StatObject)
    (out_rttm_file rec_id_ : string) (k : nat) : M unit :=
  st <-- diarize diary_obj_eval rec_id_ k ;;
  _ <-- logger_info ("Completed diarizing " ++ fst st)%string ;;
  write_rttm (snd st) out_rttm_file.

(** The number of eigenvectors asked of the solver, and the first row kept
    of the sign-flipped embedding. *)
Definition solver_k (n_components : nat) (drop_first : bool) : nat :=
  if drop_first then (n_components + 1)%nat else n_components.

Definition first_kept (drop_first : bool) : nat :=
  if drop_first then 1%nat else 0%nat.

(** The negated Laplacian handed to the solver and the diagonal vector
    [dd] that comes with it (lines 163-169). *)
Definition solver_input (adjacency : sparse) (norm_laplacian : bool) : sparse :=
  sp_scale (-1) (set_diag (fst (csgraph_laplacian adjacency norm_laplacian)) 1 norm_laplacian).

Definition degree_diag (adjacency : sparse) (norm_laplacian : bool) : list Q :=
  snd (csgraph_laplacian adjacency norm_laplacian).

(** The eigenvectors as rows, last column of the solver first (line 180). *)
Definition eigen_rows (k : nat) (diffusion_map : ndarray) : ndarray :=
  rows_back_from k (transpose diffusion_map).

(** What lines 163-189 compute; the connectivity test plays no part. *)
Definition embedding_of (adjacency : sparse) (n_components : nat)
    (norm_laplacian drop_first : bool) : result ndarray :=
  let k := solver_k n_components drop_first in
  do vd <- eigsh (solver_input adjacency norm_laplacian) k;
  do embedding <-
     (if norm_laplacian
      then div_vec (eigen_rows k (snd vd)) (degree_diag adjacency norm_laplacian)
      else OK (eigen_rows k (snd vd)));
  OK (transpose (rows_slice (first_kept drop_first) k
                            (SignFlip.deterministic_vector_sign_flip embedding))).

Definition with_warning (w : world) (connected : bool) : world :=
  if connected then w
  else mkWorld (rng w) (warnings w ++ [graph_warning]) (log w) (files w).

(** From labels to turns (lines 231-257). *)
Definition labels_to_turns (labels : list nat) (obj : StatObject) (rec_id_ : string)
  : result (string * list entry) :=
  do st <- labels_to_boundaries labels (segset obj) rec_id_;
  do lol <- reconcile merge_tolerance (snd st);
  OK (fst st, lol).

(** What one turn of the label loop reads off a segment name: the
    recording id and the two times, when the name has the two fields and
    both are numbers. *)
Definition parse_name (sub_seg : string) : option (string * Q * Q) :=
  let splitted := PyStr.rsplit "_" 2 sub_seg in
  match nth_error splitted 1, nth_error splitted 2 with
  | Some a, Some b =>
      match py_float a, py_float b with
      | Some qa, Some qb => Some (nth 0 splitted ""%string, qa, qb)
      | _, _ => None
      end
  | _, _ => None
  end.

(** Lines 416-426 of [dev_tuner] for one candidate count: the dataset is
    diarized and scored; and the text of the log line of lines 428-431. *)
Variable score_candidate : nat -> M Q.
Variable tuner_msg : nat -> Q -> string.

(** The loop of lines 414-434. *)
Fixpoint tuner_loop (candidates : list nat) (DER_list : list Q) : M (list Q) :=
  match candidates with
  | [] => ret DER_list
  | n_lambdas :: tl =>
      DER_ <-- score_candidate n_lambdas ;;
      _ <-- logger_info (tuner_msg n_lambdas DER_) ;;
      tuner_loop tl (DER_list ++ [DER_])
  end.

(** [dev_tuner], lines 407-439. *)
Definition dev_tuner (max_num_spkrs : nat) : M nat :=
  DER_list <-- tuner_loop (seq 1 max_num_spkrs) [] ;;
  lift (tuned_n_lambdas DER_list).

(** Lines 337-369 of [diarize_dataset] for one recording: the csv of the
    recording, its data loader and [embedding_computation_loop]; and
    [diar.get_oracle_num_spkrs]. *)
Variable embeddings_for : string -> M StatObject.
Variable get_oracle_num_spkrs : string -> list string -> nat.

(** What [diarize_dataset] asks of the file system and of the model:
    [open(path, "r")] with the lines read from the file, the loading of
    the embedding model (lines 318-327), [os.makedirs] behind the test of
    line 373, and [glob.glob(out_rttm_dir + "/*.rttm")] on the files that
    are there, in the order the file system lists them. *)
Variable read_lines : string -> result (list string).
Variable load_embedding_model : result unit.
Variable makedirs_if_missing : string -> result unit.
Variable glob_rttm : string -> list (string * list entry) -> list string.

(** Lines 296-298: the reference file of a split. *)
Definition full_ref_rttm_file (ref_rttm_dir split_type : string) : string :=
  (ref_rttm_dir ++ "/fullref_ami_" ++ split_type ++ ".rttm")%string.

(** Lines 294-307: [spkr_info] is bound only when the oracle count is
    asked for. *)
Definition read_spkr_info (oracle_n_spkrs : bool) (ref_rttm_dir split_type : string)
  : result (option (list string)) :=
  if oracle_n_spkrs then
    do RTTM <- read_lines (full_ref_rttm_file ref_rttm_dir split_type);
    OK (Some (Csv.spkr_info_of RTTM))
  else OK None.

(** Lines 294-327, what comes before the loop: the speaker information,
    the recording ids, the embedding model. *)
Definition prepare (full_csv : list (list string)) (split_type : string)
    (oracle_n_spkrs : bool) (ref_rttm_dir : string)
  : result (option (list string) * list string) :=
  do spkr_info <- read_spkr_info oracle_n_spkrs ref_rttm_dir split_type;
  do all_rec_ids <- Csv.all_rec_ids full_csv;
  do loaded <- load_embedding_model;
  OK (spkr_info, all_rec_ids).

(** The log line of lines 331-335. *)
Definition diarizing_msg (split_type : string) (i N : nat) (rec_id_ : string) : string :=
  ("Diarizing "
   ++ ("[" ++ split_type ++ ": " ++ PyStr.str_of_nat i ++ "/" ++ PyStr.str_of_nat N ++ "]")
   ++ " : " ++ rec_id_ ++ " ")%string.

(** Line 375: the output file of a recording. *)
Definition out_rttm_file_of (out_rttm_dir rec_id_ : string) : string :=
  (out_rttm_dir ++ "/" ++ rec_id_ ++ ".rttm")%string.

(** Lines 377-382: the number of speakers of a recording. *)
Definition num_spkrs_of (spkr_info : option (list string)) (n_lambdas : nat)
    (rec_id_ : string) : nat :=
  match spkr_info with
  | Some info => get_oracle_num_spkrs rec_id_ info
  | None => n_lambdas
  end.

(** One turn of the loop of lines 329-384; [out_rttm_dir] is the value
    line 372 computes, the same at every turn. *)
Definition diarize_one (split_type out_rttm_dir : string)
    (spkr_info : option (list string)) (n_lambdas N i : nat) (rec_id_ : string)
  : M unit :=
  _ <-- logger_info (diarizing_msg split_type i N rec_id_) ;;
  diary_obj_dev <-- embeddings_for rec_id_ ;;
  _ <-- lift (makedirs_if_missing out_rttm_dir) ;;
  do_spec_clustering diary_obj_dev (out_rttm_file_of out_rttm_dir rec_id_) rec_id_
                     (num_spkrs_of spkr_info n_lambdas rec_id_).

Fixpoint diarize_loop (split_type out_rttm_dir : string)
    (spkr_info : option (list string)) (n_lambdas N i : nat) (recs : list string)
  : M unit :=
  match recs with
  | [] => ret tt
  | rec_id_ :: tl =>
      _ <-- diarize_one split_type out_rttm_dir spkr_info n_lambdas N i rec_id_ ;;
      diarize_loop split_type out_rttm_dir spkr_info n_lambdas N (S i) tl
  end.

(** Line 388: the file all the others are copied into. *)
Definition concate_rttm_file_of (out_rttm_dir : string) : string :=
  (out_rttm_dir ++ "/sys_output.rttm")%string.

(** [open(f, "r")] on the files written: the last one written under the
    name, none when there is no such file. *)
Fixpoint read_file (f : string) (fs : list (string * list entry)) : option (list entry) :=
  match fs with
  | [] => None
  | (g, lines) :: tl =>
      match read_file f tl with
      | Some later => Some later
      | None => if String.eqb g f then Some lines else None
      end
  end.

(** The loop of lines 392-396: every file but the one written to is
    copied; [cat] is what has been copied so far. *)
Fixpoint copy_rttm_files (concate_rttm_file : string) (names : list string)
    (fs : list (string * list entry)) (cat : list entry) : result unit * list entry :=
  match names with
  | [] => (OK tt, cat)
  | f :: tl =>
      if String.eqb f concate_rttm_file then copy_rttm_files concate_rttm_file tl fs cat
      else match read_file f fs with
           | Some lines => copy_rttm_files concate_rttm_file tl fs (cat ++ lines)
           | None => (Raise OSError, cat)
           end
  end.

(** The log line of lines 398-402. *)
Definition generated_msg (split_type concate_rttm_file : string) : string :=
  ("The system generated RTTM file for " ++ split_type ++ " set : "
   ++ concate_rttm_file)%string.

(** Lines 388-404.  Opening the file for writing empties it, so it is
    there and empty when [glob] lists the directory; what was copied
    before a failure stays in it. *)
Definition concatenate_rttm (split_type out_rttm_dir : string) : M string :=
  fun w =>
    let concate_rttm_file := concate_rttm_file_of out_rttm_dir in
    if writable concate_rttm_file then
      let fs := files w ++ [(concate_rttm_file, [])] in
      let (r, cat) :=
        copy_rttm_files concate_rttm_file (glob_rttm out_rttm_dir fs) fs [] in
      let w1 := mkWorld (rng w) (warnings w) (log w)
                        (files w ++ [(concate_rttm_file, cat)]) in
      match r with
      | OK _ =>
          (OK concate_rttm_file,
           mkWorld (rng w1) (warnings w1)
                   (log w1 ++ [generated_msg split_type concate_rttm_file]) (files w1))
      | Raise e => (Raise e, w1)
      end
    else (Raise OSError, w).

(** [diarize_dataset], lines 290-404.  [out_rttm_dir] is a local variable
    that only line 372, inside the loop, binds: with no recording id
    line 388 reads it unbound. *)
Definition diarize_dataset (full_csv : list (list string))
    (split_type out_rttm_dir : string) (oracle_n_spkrs : bool)
    (ref_rttm_dir : string) (n_lambdas : nat) : M string :=
  p <-- lift (prepare full_csv split_type oracle_n_spkrs ref_rttm_dir) ;;
  let spkr_info := fst p in
  let all_rec_ids := snd p in
  _ <-- diarize_loop split_type out_rttm_dir spkr_info n_lambdas
                     (List.length all_rec_ids) 1 all_rec_ids ;;
  match all_rec_ids with
  | [] => lift (Raise UnboundLocalError)
  | _ :: _ => concatenate_rttm split_type out_rttm_dir
  end.

(** [compute_embeddings] (lines 64-76) with the [squeeze], [cpu] and
    [numpy] of line 113, on one batch; it reads and updates the running
    statistics of [mean_var_norm_emb], whose count line 102 resets. *)
Variable Wav : Type.
Variable NormState : Type.
Variable reset_count : NormState -> NormState.
Variable compute_embeddings : NormState -> Wav -> ndarray * NormState.

(** The saved statistics files, the running statistics and the log. *)
Record store : Type := mkStore {
  pickles : list (string * StatObject_SB);
  norm : NormState;
  elog : list string
}.

(** The loop of lines 104-114 over the batches [(ids, wavs)]. *)
Fixpoint batches_loop (batches : list (list string * Wav))
    (modelset segset : list string) (embeddings : ndarray) (ns : NormState)
  : result (list string * list string * ndarray) * NormState :=
  match batches with
  | [] => (OK (modelset, segset, embeddings), ns)
  | (ids, wavs) :: tl =>
      let modelset := modelset ++ ids in
      let segset := segset ++ ids in
      let (emb, ns) := compute_embeddings ns wavs in
      match vconcat embeddings emb with
      | OK embeddings => batches_loop tl modelset segset embeddings ns
      | Raise e => (Raise e, ns)
      end
  end.

(** [embedding_computation_loop], lines 90-141. *)
Definition embedding_computation_loop (set_loader : list (list string * Wav))
    (stat_file : string) (emb_dim : nat) (st : store)
  : result StatObject_SB * store :=
  match lookup_stat stat_file (pickles st) with
  | None =>
      match batches_loop set_loader [] [] (empty_rows emb_dim) (reset_count (norm st)) with
      | (OK (modelset, segset, embeddings), ns) =>
          let s := repeat None (nrows embeddings) in
          let b := ones_column (nrows embeddings) in
          let stat_obj := mkStatSB modelset segset s s b embeddings in
          (OK stat_obj,
           mkStore ((stat_file, stat_obj) :: pickles st) ns
                   (elog st ++ ["Saving Embeddings..."%string]))
      | (Raise e, ns) => (Raise e, mkStore (pickles st) ns (elog st))
      end
  | Some stat_obj =>
      (OK stat_obj,
       mkStore (pickles st) (norm st)
               (elog st ++ ["Skipping embedding extraction (as already present)";
                            "Loading previously saved embeddings"]%string))
  end.

(** The embeddings of the batches, computed one after the other. *)
Fixpoint batch_embeddings (batches : list (list string * Wav)) (ns : NormState)
  : list ndarray :=
  match batches with
  | [] => []
  | (_, wavs) :: tl =>
      fst (compute_embeddings ns wavs)
        :: batch_embeddings tl (snd (compute_embeddings ns wavs))
  end.

(** ** The label loop (lines 235-246) *)

Lemma label_step_inv labels subseg_ids r0 l0 i st :
  label_step labels subseg_ids (r0, l0) i = OK st ->
  exists sub_seg e,
    nth_error subseg_ids i = Some sub_seg /\
    st = (parsed_rec_id sub_seg, l0 ++ [e]) /\
    rec_id e = parsed_rec_id sub_seg /\
    spkr_id e = (r0 ++ "_" ++ PyStr.str_of_nat (nth i labels 0%nat))%string.
Proof.
  unfold label_step.
  destruct (nth_error subseg_ids i) as [sub_seg|]; cbn [bind]; [|intros X; discriminate X].
  destruct (nth_error (PyStr.rsplit "_" 2 sub_seg) 1) as [s1|]; cbn [bind]; [|intros X; discriminate X].
  destruct (py_float s1) as [q1|]; cbn [bind]; [|intros X; discriminate X].
  destruct (nth_error (PyStr.rsplit "_" 2 sub_seg) 2) as [s2|]; cbn [bind]; [|intros X; discriminate X].
  destruct (py_float s2) as [q2|]; cbn [bind]; [|intros X; discriminate X].
  intros H; inversion H; subst; clear H.
  eexists; eexists; repeat split; reflexivity.
Qed.

Lemma label_loop_inv labels subseg_ids n :
  forall a r0 l0 r lol,
    label_loop labels subseg_ids (seq a n) (r0, l0) = OK (r, lol) ->
    exists new,
      lol = l0 ++ new /\ List.length new = n /\
      r = rec_id_before r0 (skipn a subseg_ids) n /\
      forall i, (i < n)%nat ->
        spkr_id (nth i new dummy_entry)
        = (rec_id_before r0 (skipn a subseg_ids) i ++ "_"
           ++ PyStr.str_of_nat (nth (a + i) labels 0%nat))%string /\
        rec_id (nth i new dummy_entry)
        = parsed_rec_id (nth (a + i) subseg_ids ""%string).
Proof.
  induction n as [|n IH]; intros a r0 l0 r lol H.
  - simpl in H; inversion H; subst. exists []. rewrite app_nil_r.
    split; [reflexivity|]. split; [reflexivity|]. split; [reflexivity|].
    intros i Hi; lia.
  - cbn [label_loop seq] in H.
    destruct (label_step labels subseg_ids (r0, l0) a) as [st|] eqn:Hs; cbn [bind] in H;
      [|discriminate H].
    destruct (label_step_inv _ _ _ _ _ _ Hs) as (sub & e & Hsub & -> & Hrec & Hspk).
    destruct (IH _ _ _ _ _ H) as (new & -> & Hlen & Hr & Hall).
    assert (Hnth : forall d, nth a subseg_ids d = sub)
      by (intros d; apply nth_error_nth; exact Hsub).
    assert (Hskip : forall j d, nth j (skipn (S a) subseg_ids) d = nth (S (a + j)) subseg_ids d).
    { intros j d. rewrite nth_skipn. reflexivity. }
    assert (Hskip0 : forall j d, nth j (skipn a subseg_ids) d = nth (a + j) subseg_ids d).
    { intros j d. rewrite nth_skipn. reflexivity. }
    assert (Hbefore : forall j,
      rec_id_before (parsed_rec_id sub) (skipn (S a) subseg_ids) j
      = rec_id_before r0 (skipn a subseg_ids) (S j)).
    { intros [|j]; simpl.
      - rewrite Hskip0, Nat.add_0_r, Hnth. reflexivity.
      - rewrite Hskip, Hskip0. f_equal. f_equal. lia. }
    exists (e :: new).
    split; [rewrite <- app_assoc; reflexivity|].
    split; [simpl; lia|].
    split; [rewrite Hr; apply Hbefore|].
    intros [|i] Hi; cbn [nth].
    + rewrite Nat.add_0_r, Hnth. split; [exact Hspk | exact Hrec].
    + destruct (Hall i ltac:(lia)) as [H1 H2]. rewrite H1, H2, Hbefore.
      replace (S a + i)%nat with (a + S i)%nat by lia. split; reflexivity.
Qed.

(** C10: in the label loop the recording id is reassigned on every turn
    from [rsplit("_", 2)] of that turn's segment name.  So the speaker id
    of the first entry is prefixed with the caller's [rec_id], and the
    speaker id of every later entry [i] with the recording id parsed from
    segment name [i - 1]; the entry's own recording id is the one parsed
    from segment name [i], and the id left after the loop is the one parsed
    from the last name. *)
Theorem label_loop_rec_id_lags_one_turn labels subseg_ids rec0 r lol :
  labels_to_boundaries labels subseg_ids rec0 = OK (r, lol) ->
  List.length lol = List.length labels /\
  r = rec_id_before rec0 subseg_ids (List.length labels) /\
  forall i, (i < List.length labels)%nat ->
    spkr_id (nth i lol dummy_entry)
    = (rec_id_before rec0 subseg_ids i ++ "_"
       ++ PyStr.str_of_nat (nth i labels 0%nat))%string /\
    rec_id (nth i lol dummy_entry) = parsed_rec_id (nth i subseg_ids ""%string).
Proof.
  unfold labels_to_boundaries. intros H.
  destruct (label_loop_inv _ _ _ _ _ _ _ _ H) as (new & -> & Hlen & Hr & Hall).
  cbn [skipn app Nat.add] in *.
  split; [exact Hlen|]. split; [exact Hr|]. exact Hall.
Qed.
(** ** The overlap pass *)

Lemma overlapped_iff cur nxt :
  Diar.overlapped cur nxt = true <-> sseg_start nxt < sseg_end cur.
Proof.
  unfold Diar.overlapped. rewrite negb_true_iff.
  destruct (Qle_bool (sseg_end cur) (sseg_start nxt)) eqn:E.
  - apply Qle_bool_iff in E. split; [discriminate | intros H; lra].
  - split; [intros _ | reflexivity].
    apply Qnot_le_lt. intros H. apply Qle_bool_iff in H. congruence.
Qed.

Lemma cut_end_same_end c c' n :
  sseg_end c' = sseg_end c -> cut_end c' n = cut_end c n /\ cut_start c' n = cut_start c n.
Proof.
  unfold cut_end, cut_start, Diar.overlapped, Diar.midpoint. intros ->. split; reflexivity.
Qed.

Lemma distribute_from_head cur rest d :
  sseg_start (nth 0 (Diar.distribute_from cur rest) d) = sseg_start cur.
Proof.
  destruct rest as [|nxt tl]; simpl; [reflexivity|].
  destruct (Diar.overlapped cur nxt); reflexivity.
Qed.

Lemma distribute_from_length rest :
  forall cur, List.length (Diar.distribute_from cur rest) = S (List.length rest).
Proof.
  induction rest as [|nxt tl IH]; intros cur; simpl; [reflexivity|].
  destruct (Diar.overlapped cur nxt); simpl; rewrite IH; reflexivity.
Qed.

Lemma distribute_from_nth d rest :
  forall cur i, (i < List.length rest)%nat ->
    sseg_end (nth i (Diar.distribute_from cur rest) d)
    = cut_end (nth i (cur :: rest) d) (nth (S i) (cur :: rest) d) /\
    sseg_start (nth (S i) (Diar.distribute_from cur rest) d)
    = cut_start (nth i (cur :: rest) d) (nth (S i) (cur :: rest) d).
Proof.
  induction rest as [|nxt tl IH]; intros cur i Hi; [simpl in Hi; lia|].
  destruct i as [|i].
  - cbn [nth Diar.distribute_from]. unfold cut_end, cut_start.
    destruct (Diar.overlapped cur nxt); cbn [nth];
      rewrite distribute_from_head; split; reflexivity.
  - simpl in Hi.
    assert (Hrec : forall cur',
      sseg_end cur' = sseg_end nxt ->
      sseg_end (nth i (Diar.distribute_from cur' tl) d)
      = cut_end (nth i (nxt :: tl) d) (nth (S i) (nxt :: tl) d) /\
      sseg_start (nth (S i) (Diar.distribute_from cur' tl) d)
      = cut_start (nth i (nxt :: tl) d) (nth (S i) (nxt :: tl) d)).
    { intros cur' He. destruct (IH cur' i ltac:(lia)) as [H1 H2].
      rewrite H1, H2. destruct i as [|i]; cbn [nth].
      - apply cut_end_same_end; exact He.
      - split; reflexivity. }
    cbn [Diar.distribute_from].
    destruct (Diar.overlapped cur nxt); cbn [nth]; apply Hrec; reflexivity.
Qed.

Lemma distribute_overlap_length l :
  List.length (Diar.distribute_overlap l) = List.length l.
Proof.
  destruct l as [|e tl]; [reflexivity|]. apply distribute_from_length.
Qed.

Lemma distribute_overlap_nth d l i :
  (S i < List.length l)%nat ->
  sseg_end (nth i (Diar.distribute_overlap l) d) = cut_end (nth i l d) (nth (S i) l d) /\
  sseg_start (nth (S i) (Diar.distribute_overlap l) d) = cut_start (nth i l d) (nth (S i) l d).
Proof.
  destruct l as [|e tl]; simpl List.length; intros H; [lia|].
  apply distribute_from_nth. lia.
Qed.

(** C3: the overlap pass keeps the number of turns, and for every pair of
    neighbouring turns, the first ending at [e1] and the second starting
    at [s2]: when [s2 < e1] the first turn ends and the second starts at
    [(s2 + e1) / 2] afterwards; otherwise the end of the first and the
    start of the second are left as they were.  The entries
    [(spkrA, 0, 2)] and [(spkrB, 1, 3)] are reconciled to [(spkrA, 0, 1.5)]
    and [(spkrB, 1.5, 3)], whatever the merge tolerance. *)
Theorem distribute_overlap_splits_at_midpoint (l : list entry) (i : nat) :
  (S i < List.length l)%nat ->
  let cur := nth i l dummy_entry in
  let nxt := nth (S i) l dummy_entry in
  let out := Diar.distribute_overlap l in
  let m := (sseg_start nxt + sseg_end cur) / 2 in
  List.length out = List.length l /\
  (sseg_start nxt < sseg_end cur ->
     sseg_end (nth i out dummy_entry) = m /\
     sseg_start (nth (S i) out dummy_entry) = m) /\
  (sseg_end cur <= sseg_start nxt ->
     sseg_end (nth i out dummy_entry) = sseg_end cur /\
     sseg_start (nth (S i) out dummy_entry) = sseg_start nxt) /\
  (forall tol, reconcile tol overlap_in = OK overlap_out).
Proof.
  intros Hi cur nxt out m.
  destruct (distribute_overlap_nth dummy_entry l i Hi) as [He Hs].
  fold cur nxt out in He, Hs. unfold cut_end, cut_start in He, Hs.
  split; [apply distribute_overlap_length|].
  split; [|split].
  - intros Hov. apply overlapped_iff in Hov. rewrite Hov in He, Hs.
    split; assumption.
  - intros Hno.
    destruct (Diar.overlapped cur nxt) eqn:E.
    + apply overlapped_iff in E. lra.
    + split; assumption.
  - intros tol. reflexivity.
Qed.

(** ** Order of the reconciled turns *)

Lemma cut_end_le_cut_start c n : cut_end c n <= cut_start c n.
Proof.
  unfold cut_end, cut_start, Diar.overlapped.
  destruct (Qle_bool (sseg_end c) (sseg_start n)) eqn:E; cbn [negb].
  - apply Qle_bool_iff. exact E.
  - apply Qle_refl.
Qed.

Lemma distribute_overlap_adjacent l i :
  (S i < List.length (Diar.distribute_overlap l))%nat ->
  sseg_end (nth i (Diar.distribute_overlap l) dummy_entry)
  <= sseg_start (nth (S i) (Diar.distribute_overlap l) dummy_entry).
Proof.
  rewrite distribute_overlap_length. intros Hi.
  destruct (distribute_overlap_nth dummy_entry l i Hi) as [-> ->].
  apply cut_end_le_cut_start.
Qed.

Lemma chain_apart (out : list entry) :
  (forall i, (S i < List.length out)%nat ->
     sseg_end (nth i out dummy_entry) <= sseg_start (nth (S i) out dummy_entry)) ->
  (forall i, (i < List.length out)%nat ->
     sseg_start (nth i out dummy_entry) <= sseg_end (nth i out dummy_entry)) ->
  forall n i, (S (i + n) < List.length out)%nat ->
    sseg_end (nth i out dummy_entry) <= sseg_start (nth (S (i + n)) out dummy_entry).
Proof.
  intros Hadj Hpos. induction n as [|n IH]; intros i Hi.
  - rewrite Nat.add_0_r in *. apply Hadj. exact Hi.
  - apply Qle_trans with (sseg_start (nth (S (i + n)) out dummy_entry)).
    + apply IH. lia.
    + apply Qle_trans with (sseg_end (nth (S (i + n)) out dummy_entry)).
      * apply Hpos. lia.
      * replace (i + S n)%nat with (S (i + n)) by lia. apply Hadj. lia.
Qed.

Lemma reconcile_inv tol lol out :
  reconcile tol lol = OK out ->
  Diar.entries_ok (sort_by_start lol) = true /\
  out = Diar.distribute_overlap (Diar.merge_pass tol (sort_by_start lol)).
Proof.
  unfold reconcile, Diar.merge_ssegs_same_speaker.
  destruct (Diar.entries_ok (sort_by_start lol)); cbn [bind]; intros H.
  - inversion H. split; reflexivity.
  - discriminate H.
Qed.

(** C2 (as amended): after reconciliation every turn ends no later than
    the turn that follows it in the output starts.  When moreover no
    output turn is inverted (each starts no later than it ends), any
    earlier turn ends no later than any later turn starts, and the turns
    are pairwise apart. *)
Theorem reconcile_neighbours_apart tol lol out :
  reconcile tol lol = OK out ->
  (forall i, (S i < List.length out)%nat ->
     sseg_end (nth i out dummy_entry) <= sseg_start (nth (S i) out dummy_entry)) /\
  ((forall i, (i < List.length out)%nat ->
      sseg_start (nth i out dummy_entry) <= sseg_end (nth i out dummy_entry)) ->
   (forall i j, (i < j)%nat -> (j < List.length out)%nat ->
      sseg_end (nth i out dummy_entry) <= sseg_start (nth j out dummy_entry)) /\
   pairwise_apart out).
Proof.
  intros H. destruct (reconcile_inv _ _ _ H) as [_ ->].
  set (out := Diar.distribute_overlap _).
  assert (Hadj : forall i, (S i < List.length out)%nat ->
     sseg_end (nth i out dummy_entry) <= sseg_start (nth (S i) out dummy_entry))
    by (intros i Hi; apply distribute_overlap_adjacent; exact Hi).
  split; [exact Hadj|]. intros Hpos.
  assert (Hord : forall i j, (i < j)%nat -> (j < List.length out)%nat ->
      sseg_end (nth i out dummy_entry) <= sseg_start (nth j out dummy_entry)).
  { intros i j Hij Hj. replace j with (S (i + (j - S i))) by lia.
    apply chain_apart; trivial. lia. }
  split; [exact Hord|].
  intros i j Hne Hi Hj.
  destruct (Nat.lt_ge_cases i j) as [Hlt|Hge].
  - left. apply Hord; assumption.
  - right. apply Hord; [lia | assumption].
Qed.

(** C2 fails as stated: the three segments of [nested_in] are valid
    entries of one recording, nothing is merged, and the overlap pass
    leaves the first turn ending at 2 while the third starts at 1.75. *)
Lemma reconcile_nested_turns_overlap :
  exists out,
    reconcile 0 nested_in = OK out /\
    List.length out = 3%nat /\
    sseg_start (nth 2 out dummy_entry) < sseg_end (nth 0 out dummy_entry) /\
    sseg_start (nth 0 out dummy_entry) < sseg_end (nth 2 out dummy_entry) /\
    ~ pairwise_apart out.
Proof.
  eexists. split; [reflexivity|]. split; [reflexivity|].
  assert (H1 : sseg_start (nth 2 (Diar.distribute_overlap nested_in) dummy_entry)
               < sseg_end (nth 0 (Diar.distribute_overlap nested_in) dummy_entry))
    by (vm_compute; reflexivity).
  assert (H2 : sseg_start (nth 0 (Diar.distribute_overlap nested_in) dummy_entry)
               < sseg_end (nth 2 (Diar.distribute_overlap nested_in) dummy_entry))
    by (vm_compute; reflexivity).
  split; [exact H1|]. split; [exact H2|].
  intros Hp.
  destruct (Hp 0%nat 2%nat ltac:(lia) ltac:(simpl; lia) ltac:(simpl; lia)) as [H|H].
  - apply (Qlt_not_le _ _ H1). exact H.
  - apply (Qlt_not_le _ _ H2). exact H.
Qed.

(** ** The affinity matrix *)

Lemma coo_entry_cons r c v tl i j :
  coo_entry ((r, c, v) :: tl) i j
  = if (r =? i)%nat && (c =? j)%nat then v + coo_entry tl i j else coo_entry tl i j.
Proof. reflexivity. Qed.

Lemma coo_entry_app l1 l2 i j :
  coo_entry (l1 ++ l2) i j == coo_entry l1 i j + coo_entry l2 i j.
Proof.
  induction l1 as [|[[r c] v] tl IH]; cbn [app].
  - change (coo_entry [] i j) with 0. ring.
  - rewrite !coo_entry_cons.
    destruct ((r =? i)%nat && (c =? j)%nat); rewrite IH; ring.
Qed.

Lemma coo_entry_transpose l i j :
  coo_entry (map (fun t => match t with (r, c, v) => (c, r, v) end) l) i j
  = coo_entry l j i.
Proof.
  induction l as [|[[r c] v] tl IH]; cbn [map]; [reflexivity|].
  rewrite !coo_entry_cons, IH, andb_comm. reflexivity.
Qed.

Lemma coo_entry_scale k l i j :
  coo_entry (map (fun t => match t with (r, c, v) => (r, c, k * v) end) l) i j
  == k * coo_entry l i j.
Proof.
  induction l as [|[[r c] v] tl IH]; cbn [map].
  - change (coo_entry [] i j) with 0. ring.
  - rewrite !coo_entry_cons.
    destruct ((r =? i)%nat && (c =? j)%nat); rewrite IH; ring.
Qed.

Lemma symmetrize_entry G i j :
  sp_entry (symmetrize G) i j == (1 # 2) * (sp_entry G i j + sp_entry G j i).
Proof.
  unfold symmetrize, sp_entry, sp_scale, sp_add, sp_transpose. cbn [coo dim].
  rewrite coo_entry_scale, coo_entry_app, coo_entry_transpose. reflexivity.
Qed.

(** Rows of the neighbour graph: the entry at [(i, j)] counts how often
    [j] is listed among the neighbours of [i]. *)
Lemma coo_row_other r ns i j :
  r <> i -> coo_entry (map (fun c => (r, c, 1)) ns) i j = 0.
Proof.
  intros Hr. induction ns as [|c tl IH]; cbn [map]; [reflexivity|].
  rewrite coo_entry_cons.
  destruct (Nat.eqb_spec r i) as [E|_]; [contradiction|]. cbn [andb]. exact IH.
Qed.

Lemma coo_row_absent r ns i j :
  ~ In j ns -> coo_entry (map (fun c => (r, c, 1)) ns) i j = 0.
Proof.
  induction ns as [|c tl IH]; cbn [map]; intros Hn; [reflexivity|].
  rewrite coo_entry_cons.
  destruct (Nat.eqb_spec c j) as [E|_].
  - exfalso. apply Hn. left. exact E.
  - rewrite andb_false_r. apply IH. intros H. apply Hn. right. exact H.
Qed.

Lemma coo_row_nodup r ns i j :
  NoDup ns ->
  coo_entry (map (fun c => (r, c, 1)) ns) i j == 0 \/
  coo_entry (map (fun c => (r, c, 1)) ns) i j == 1.
Proof.
  induction ns as [|c tl IH]; cbn [map]; intros Hnd.
  - left. reflexivity.
  - rewrite coo_entry_cons.
    inversion Hnd as [|? ? Hnotin Hnd']; subst.
    destruct ((r =? i)%nat && (c =? j)%nat) eqn:E.
    + right. apply andb_true_iff in E. destruct E as [_ E].
      apply Nat.eqb_eq in E. subst c.
      rewrite (coo_row_absent r tl i j Hnotin). ring.
    + apply IH. exact Hnd'.
Qed.

Lemma coo_rows_absent (f : nat -> list nat) rows i j :
  ~ In i rows ->
  coo_entry (flat_map (fun r => map (fun c => (r, c, 1)) (f r)) rows) i j == 0.
Proof.
  induction rows as [|r rs IH]; cbn [flat_map]; intros Hn; [reflexivity|].
  rewrite coo_entry_app, coo_row_other, IH.
  - ring.
  - intros H. apply Hn. right. exact H.
  - intros E. apply Hn. left. exact E.
Qed.

Lemma coo_rows_binary (f : nat -> list nat) rows i j :
  NoDup rows -> (forall r, NoDup (f r)) ->
  coo_entry (flat_map (fun r => map (fun c => (r, c, 1)) (f r)) rows) i j == 0 \/
  coo_entry (flat_map (fun r => map (fun c => (r, c, 1)) (f r)) rows) i j == 1.
Proof.
  intros Hrows Hf. induction rows as [|r rs IH]; cbn [flat_map].
  - left. reflexivity.
  - inversion Hrows as [|? ? Hnotin Hrs]; subst.
    destruct (Nat.eq_dec r i) as [->|Hne].
    + destruct (coo_row_nodup i (f i) i j (Hf i)) as [H|H];
        [left|right]; rewrite coo_entry_app, H, (coo_rows_absent f rs i j Hnotin); ring.
    + destruct (IH Hrs) as [H|H];
        [left|right]; rewrite coo_entry_app, (coo_row_other r (f r) i j Hne), H; ring.
Qed.

Lemma insert_by_perm {A : Type} (key : A -> Q) e l :
  Permutation (insert_by key e l) (e :: l).
Proof.
  induction l as [|x tl IH]; cbn [insert_by]; [apply Permutation_refl|].
  destruct (Qle_bool (key e) (key x)); [apply Permutation_refl|].
  apply perm_trans with (x :: e :: tl); [apply perm_skip; exact IH | apply perm_swap].
Qed.

Lemma sort_by_perm {A : Type} (key : A -> Q) l : Permutation (sort_by key l) l.
Proof.
  induction l as [|x tl IH]; cbn [sort_by fold_right]; [apply perm_nil|].
  apply perm_trans with (x :: sort_by key tl); [apply insert_by_perm|].
  apply perm_skip. exact IH.
Qed.

Lemma nearest_nodup X nb incl i : NoDup (Knn.nearest X nb incl i).
Proof.
  unfold Knn.nearest.
  set (l := sort_by _ _).
  assert (Hl : NoDup l).
  { apply (Permutation_NoDup (l := Knn.candidates X incl i)).
    - apply Permutation_sym, sort_by_perm.
    - apply NoDup_filter, seq_NoDup. }
  rewrite <- (firstn_skipn nb l) in Hl. apply NoDup_app_remove_r in Hl. exact Hl.
Qed.

Lemma knn_graph_binary X nb incl i j :
  sp_entry (Knn.knn_graph X nb incl) i j == 0 \/
  sp_entry (Knn.knn_graph X nb incl) i j == 1.
Proof.
  unfold sp_entry, Knn.knn_graph. cbn [coo].
  apply (coo_rows_binary (Knn.nearest X nb incl)).
  - apply seq_NoDup.
  - intros r. apply nearest_nodup.
Qed.

(** C4: when the graph builder returns an affinity matrix [A], the
    neighbour routine returned a directed adjacency [G] and [A] is
    [0.5 * (G + G^T)] entry by entry; so [A] is symmetric, and its entries
    lie between 0 and 1. *)
Theorem affinity_is_symmetrized_adjacency (X : ndarray) (A : sparse) :
  affinity_of X = OK A ->
  exists G,
    Knn.kneighbors_graph X (p_n_neighbors params) (p_include_self params) = OK G /\
    A = symmetrize G /\
    (forall i j, sp_entry A i j == (1 # 2) * (sp_entry G i j + sp_entry G j i)) /\
    (forall i j, sp_entry A i j == sp_entry A j i) /\
    (forall i j, 0 <= sp_entry A i j /\ sp_entry A i j <= 1).
Proof.
  unfold affinity_of.
  destruct (Knn.kneighbors_graph X (p_n_neighbors params) (p_include_self params))
    as [G|e] eqn:HG; cbn [bind]; intros H; [|discriminate H].
  inversion H; subst A; clear H.
  exists G. split; [reflexivity|]. split; [reflexivity|].
  split; [intros i j; apply symmetrize_entry|].
  split.
  - intros i j. rewrite !symmetrize_entry. ring.
  - assert (Hbin : forall i j, sp_entry G i j == 0 \/ sp_entry G i j == 1).
    { unfold Knn.kneighbors_graph in HG.
      destruct ((p_n_neighbors params <? 1)%Z || (nrows X <? 2)%nat);
        [discriminate HG|].
      inversion HG; subst G. intros i j. apply knn_graph_binary. }
    intros i j. rewrite symmetrize_entry.
    destruct (Hbin i j) as [H1|H1], (Hbin j i) as [H2|H2];
      rewrite H1, H2; split; lra.
Qed.

(** ** The spectral embedder *)

Lemma spectral_embedding_sb_run adjacency n norm drop w :
  spectral_embedding_sb adjacency n norm drop w
  = (embedding_of adjacency n norm drop,
     with_warning w (graph_is_connected adjacency)).
Proof.
  unfold spectral_embedding_sb, embedding_of, solver_input, degree_diag,
    with_warning, eigen_rows, solver_k, first_kept.
  destruct (csgraph_laplacian adjacency norm) as [lap dd]. cbn [fst snd].
  unfold bindM at 1.
  destruct (graph_is_connected adjacency); cbn [negb];
    unfold warn, ret, bindM, lift;
    (destruct drop;
     (match goal with |- context [eigsh ?L ?k] => destruct (eigsh L k) as [vd|e] end;
      cbn [bind]; [|reflexivity];
      destruct norm; cbn [bind]; [|reflexivity];
      match goal with |- context [div_vec ?a ?d] => destruct (div_vec a d) end;
      reflexivity)).
Qed.

Lemma div_vec_inv a dd scaled :
  div_vec a dd = OK scaled ->
  List.length dd = ncols a ->
  nrows scaled = nrows a /\ ncols scaled = ncols a /\
  forall c i, item scaled c i = item a c i / nth i dd 0.
Proof.
  unfold div_vec. intros H Hlen.
  apply Nat.eqb_eq in Hlen. rewrite Hlen in H. inversion H.
  cbn [nrows ncols item]. repeat split; reflexivity.
Qed.

Lemma embedding_of_inv adjacency n norm drop E :
  embedding_of adjacency n norm drop = OK E ->
  exists vals diffusion_map embedding,
    eigsh (solver_input adjacency norm) (solver_k n drop) = OK (vals, diffusion_map) /\
    (if norm
     then div_vec (eigen_rows (solver_k n drop) diffusion_map)
                  (degree_diag adjacency norm) = OK embedding
     else embedding = eigen_rows (solver_k n drop) diffusion_map) /\
    E = transpose (rows_slice (first_kept drop) (solver_k n drop)
                              (SignFlip.deterministic_vector_sign_flip embedding)).
Proof.
  unfold embedding_of.
  destruct (eigsh (solver_input adjacency norm) (solver_k n drop)) as [[vals dm]|e];
    cbn [bind snd]; intros H; [|discriminate H].
  destruct norm.
  - destruct (div_vec (eigen_rows (solver_k n drop) dm) (degree_diag adjacency true))
      as [emb|e] eqn:Hd; cbn [bind] in H; [|discriminate H].
    inversion H. exists vals, dm, emb. repeat split; assumption.
  - cbn [bind] in H. inversion H. exists vals, dm, (eigen_rows (solver_k n drop) dm).
    repeat split.
Qed.

(** C7: with the normalized Laplacian the embedder divides the extracted
    eigenvectors by the diagonal vector [dd] of the Laplacian routine, one
    divisor per node, and only then fixes the signs: the embedding returned
    is the sign flip of the quotient, sliced and transposed. *)
Theorem normalized_embedding_divided_before_sign_flip
    adjacency n drop (w w' : world) (E : ndarray) :
  spectral_embedding_sb adjacency n true drop w = (OK E, w') ->
  let k := solver_k n drop in
  let dd := degree_diag adjacency true in
  exists vals diffusion_map quotient,
    eigsh (solver_input adjacency true) k = OK (vals, diffusion_map) /\
    div_vec (eigen_rows k diffusion_map) dd = OK quotient /\
    (List.length dd = nrows diffusion_map ->
     forall c i, item quotient c i = item (eigen_rows k diffusion_map) c i / nth i dd 0) /\
    E = transpose (rows_slice (first_kept drop) k
                              (SignFlip.deterministic_vector_sign_flip quotient)).
Proof.
  rewrite spectral_embedding_sb_run. intros H k dd.
  assert (H' : embedding_of adjacency n true drop = OK E) by congruence.
  destruct (embedding_of_inv _ _ _ _ _ H') as (vals & dm & q & He & Hq & HE).
  exists vals, dm, q. split; [exact He|]. split; [exact Hq|]. split; [|exact HE].
  intros Hlen. apply (div_vec_inv _ _ _ Hq). exact Hlen.
Qed.

Lemma eigen_rows_shape k dm :
  ncols dm = k ->
  nrows (eigen_rows k dm) = k /\ ncols (eigen_rows k dm) = nrows dm /\
  forall r i, (r < k)%nat -> item (eigen_rows k dm) r i = item dm i (k - 1 - r).
Proof.
  intros Hk. unfold eigen_rows, rows_back_from, transpose. cbn [nrows ncols item].
  rewrite Hk. split; [lia|]. split; [reflexivity|].
  intros r i Hr. f_equal. lia.
Qed.

Lemma sliced_shape lo k a :
  nrows a = k -> (lo <= k)%nat ->
  nrows (transpose (rows_slice lo k a)) = ncols a /\
  ncols (transpose (rows_slice lo k a)) = (k - lo)%nat /\
  forall i c, item (transpose (rows_slice lo k a)) i c = item a (lo + c) i.
Proof.
  intros Hk Hlo. unfold transpose, rows_slice. cbn [nrows ncols item]. rewrite Hk.
  split; [reflexivity|]. split; [lia|].
  intros i c. f_equal. lia.
Qed.

(** C8: when the solver returns one row per node and as many columns as
    it was asked for, the embedding has one row per node and exactly
    [n_components] columns.  With [drop_first] the solver is asked for one
    eigenvector more; the rows of the intermediate array are the solver's
    columns from the last to the first, and the first of these rows, the
    solver's last column, is the one left out: column [c] of the result is
    row [c + 1] of the sign-flipped array. *)
Theorem embedding_has_n_components_columns
    adjacency n norm drop (w w' : world) (E : ndarray) :
  spectral_embedding_sb adjacency n norm drop w = (OK E, w') ->
  (forall vals dm,
     eigsh (solver_input adjacency norm) (solver_k n drop) = OK (vals, dm) ->
     nrows dm = dim adjacency /\ ncols dm = solver_k n drop /\
     List.length (degree_diag adjacency norm) = dim adjacency) ->
  nrows E = dim adjacency /\ ncols E = n /\
  solver_k n drop = (if drop then S n else n) /\
  exists vals dm embedding,
    eigsh (solver_input adjacency norm) (solver_k n drop) = OK (vals, dm) /\
    (if norm
     then div_vec (eigen_rows (solver_k n drop) dm) (degree_diag adjacency norm)
          = OK embedding
     else embedding = eigen_rows (solver_k n drop) dm) /\
    (forall r i, (r < solver_k n drop)%nat ->
       item (eigen_rows (solver_k n drop) dm) r i = item dm i (solver_k n drop - 1 - r)) /\
    (forall i c,
       item E i c
       = item (SignFlip.deterministic_vector_sign_flip embedding) (first_kept drop + c) i).
Proof.
  rewrite spectral_embedding_sb_run. intros H Hsolver.
  assert (H' : embedding_of adjacency n norm drop = OK E) by congruence.
  destruct (embedding_of_inv _ _ _ _ _ H') as (vals & dm & emb & He & Hemb & HE).
  destruct (Hsolver _ _ He) as (Hrows & Hcols & Hdd).
  destruct (eigen_rows_shape _ _ Hcols) as (Hr1 & Hr2 & Hr3).
  assert (Hshape : nrows emb = solver_k n drop /\ ncols emb = nrows dm).
  { destruct norm.
    - destruct (div_vec_inv _ _ _ Hemb) as (H1 & H2 & _); [congruence|].
      split; congruence.
    - subst emb. split; assumption. }
  destruct Hshape as [Hn Hc].
  assert (Hlo : (first_kept drop <= solver_k n drop)%nat)
    by (unfold first_kept, solver_k; destruct drop; lia).
  destruct (sliced_shape (first_kept drop) (solver_k n drop)
              (SignFlip.deterministic_vector_sign_flip emb) Hn Hlo) as (S1 & S2 & S3).
  rewrite <- HE in S1, S2, S3. cbn [SignFlip.deterministic_vector_sign_flip ncols] in S1.
  split; [congruence|].
  split; [rewrite S2; unfold first_kept, solver_k; destruct drop; lia|].
  split; [unfold solver_k; destruct drop; lia|].
  exists vals, dm, emb. split; [exact He|]. split; [exact Hemb|].
  split; [exact Hr3 | exact S3].
Qed.

(** C9: when the affinity graph is not connected the embedder adds one
    warning and nothing else changes: its outcome is that of the Laplacian
    and eigen-decomposition steps, which run on the same arguments as for
    a connected graph, and when the solver returns (with one divisor per
    node in the normalized case) an embedding is returned. *)
Theorem disconnected_graph_warns_and_proceeds adjacency n norm drop (w : world) :
  graph_is_connected adjacency = false ->
  spectral_embedding_sb adjacency n norm drop w
  = (embedding_of adjacency n norm drop,
     mkWorld (rng w) (warnings w ++ [graph_warning]) (log w) (files w)) /\
  (forall vals dm,
     eigsh (solver_input adjacency norm) (solver_k n drop) = OK (vals, dm) ->
     (norm = true -> List.length (degree_diag adjacency norm) = nrows dm) ->
     exists E, fst (spectral_embedding_sb adjacency n norm drop w) = OK E).
Proof.
  intros Hdis. rewrite spectral_embedding_sb_run, Hdis. cbn [with_warning fst].
  split; [reflexivity|].
  intros vals dm He Hdd. unfold embedding_of. rewrite He. cbn [bind snd].
  destruct norm; cbn [bind].
  - unfold div_vec. specialize (Hdd eq_refl).
    replace (ncols (eigen_rows (solver_k n drop) dm)) with (nrows dm) by reflexivity.
    rewrite Hdd, Nat.eqb_refl. cbn [bind]. eexists. reflexivity.
  - eexists. reflexivity.
Qed.

(** ** Failure of the graph builder and of the cluster assigner *)

(** The graph builder of [perform_sc] has no check of its own: it fails
    exactly when the neighbour routine fails, with that routine's error. *)
Lemma affinity_of_propagates X :
  affinity_of X
  = match Knn.kneighbors_graph X (p_n_neighbors params) (p_include_self params) with
    | OK G => OK (symmetrize G)
    | Raise e => Raise e
    end.
Proof. reflexivity. Qed.

(** C6: the affinity graph builder fails with [ConfigurationError] when
    [neighbors < 1] or fewer than 2 segments are supplied, and returns an
    affinity matrix for every other input. *)
Theorem affinity_builder_fails_on_bad_configuration (X : ndarray) :
  ((p_n_neighbors params < 1)%Z \/ (nrows X < 2)%nat ->
   affinity_of X = Raise ConfigurationError) /\
  (~ ((p_n_neighbors params < 1)%Z \/ (nrows X < 2)%nat) ->
   exists A, affinity_of X = OK A).
Proof.
  rewrite affinity_of_propagates. unfold Knn.kneighbors_graph.
  destruct (Z.ltb_spec (p_n_neighbors params) 1) as [Hn|Hn];
    destruct (Nat.ltb_spec (nrows X) 2) as [Hs|Hs]; cbn [orb].
  - split; [reflexivity | intros H; exfalso; apply H; left; exact Hn].
  - split; [reflexivity | intros H; exfalso; apply H; left; exact Hn].
  - split; [reflexivity | intros H; exfalso; apply H; right; exact Hs].
  - split; [intros [H|H]; lia | intros _; eexists; reflexivity].
Qed.



(** The labels of [perform_sc] are drawn from the process-wide generator:
    [spectral_clustering_sb] is called without [random_state], so whatever
    the object holds in that field is not read. *)
Lemma perform_sc_inv self X w self' w' :
  perform_sc self X w = (OK self', w') ->
  exists aff maps,
    affinity_of X = OK aff /\
    embedding_of aff (n_clusters self) true false = OK maps /\
    labels_ self' = fst (centroid_partition maps (n_clusters self) (rng w) 10) /\
    rng w' = snd (centroid_partition maps (n_clusters self) (rng w) 10) /\
    random_state self' = random_state self.
Proof.
  unfold perform_sc, spectral_clustering_sb, bindM at 1, lift.
  destruct (affinity_of X) as [aff|e]; [|intros H; discriminate H].
  unfold bindM at 1, bindM at 1. rewrite spectral_embedding_sb_run.
  destruct (embedding_of aff (n_clusters self) true false) as [maps|e] eqn:Hmaps;
    [|intros H; discriminate H].
  unfold k_means, check_random_state, ret.
  destruct (nrows maps <? n_clusters self)%nat; [intros H; discriminate H|].
  replace (rng (with_warning w (graph_is_connected aff))) with (rng w)
    by (unfold with_warning; destruct (graph_is_connected aff); reflexivity).
  destruct (centroid_partition maps (n_clusters self) (rng w) 10) as [labels st] eqn:Hcp.
  intros H. inversion H. exists aff, maps. rewrite Hcp.
  cbn [labels_ rng fst snd random_state].
  split; [reflexivity|]. split; [exact Hmaps|]. repeat split.
Qed.

Lemma diarize_run obj rec_id_ k w :
  diarize obj rec_id_ k w
  = match affinity_of (stat1 obj) with
    | Raise e => (Raise e, w)
    | OK aff =>
        match spectral_clustering_sb aff k None None 10 w with
        | (OK labels, w1) => (labels_to_turns labels obj rec_id_, w1)
        | (Raise e, w1) => (Raise e, w1)
        end
    end.
Proof.
  unfold diarize, perform_sc, bindM, lift, ret. cbn [n_clusters].
  destruct (affinity_of (stat1 obj)) as [aff|e]; [|reflexivity].
  destruct (spectral_clustering_sb aff k None None 10 w) as [[labels|e] w1];
    [|reflexivity].
  cbn [labels_]. unfold labels_to_turns.
  destruct (labels_to_boundaries labels (segset obj) rec_id_) as [st|e];
    cbn [bind]; [|reflexivity].
  destruct (reconcile merge_tolerance (snd st)); reflexivity.
Qed.


(** ** Checks of the modelled helpers and of the last step *)

Example rsplit_keeps_inner_separators :
  PyStr.rsplit "_" 2 "a_b_1.5_2.25" = ["a_b"; "1.5"; "2.25"]%string /\
  PyStr.rsplit "_" 2 "1.5_2.25" = ["1.5"; "2.25"]%string /\
  PyStr.rsplit "_" 2 "_1_2" = [""; "1"; "2"]%string /\
  PyStr.str_of_nat 0 = "0"%string /\ PyStr.str_of_nat 12 = "12"%string.
Proof. repeat split; reflexivity. Qed.

(** The adjacent-merge scenario of the spec. *)
Example reconcile_merges_adjacent_same_speaker :
  reconcile 0 [mkEntry "rec" 0 1 "spkrA"; mkEntry "rec" 1 2 "spkrA";
               mkEntry "rec" 2 3 "spkrB"]
  = OK [mkEntry "rec" 0 2 "spkrA"; mkEntry "rec" 2 3 "spkrB"].
Proof. reflexivity. Qed.

(** The sort is stable and the reconciler rejects an empty interval. *)
Example sort_by_start_is_stable :
  sort_by_start [mkEntry "rec" 1 2 "b"; mkEntry "rec" 0 1 "a"; mkEntry "rec" 1 3 "c"]
  = [mkEntry "rec" 0 1 "a"; mkEntry "rec" 1 2 "b"; mkEntry "rec" 1 3 "c"] /\
  reconcile 0 [mkEntry "rec" 1 1 "a"] = Raise DataError.
Proof. split; reflexivity. Qed.

(** After the sign flip the entry that was largest in magnitude is not
    negative. *)
Lemma sign_flip_largest_entry_nonnegative a i :
  0 <= item (SignFlip.deterministic_vector_sign_flip a) i (SignFlip.argmax_abs a i).
Proof.
  unfold SignFlip.deterministic_vector_sign_flip. cbn [item]. unfold Qlt_bool.
  destruct (Qle_bool 0 (item a i (SignFlip.argmax_abs a i))) eqn:E; cbn [negb].
  - apply Qle_bool_iff. exact E.
  - assert (H : ~ 0 <= item a i (SignFlip.argmax_abs a i))
      by (intros H; apply Qle_bool_iff in H; congruence).
    apply Qnot_le_lt in H. lra.
Qed.

(** [do_spec_clustering] logs the recording id left by the loop and writes
    the reconciled turns to the output file. *)
Lemma do_spec_clustering_writes_turns obj out_rttm_file rec_id_ k w st w1 :
  diarize obj rec_id_ k w = (OK st, w1) ->
  writable out_rttm_file = true ->
  do_spec_clustering obj out_rttm_file rec_id_ k w
  = (OK tt,
     mkWorld (rng w1) (warnings w1)
             (log w1 ++ [("Completed diarizing " ++ fst st)%string])
             (files w1 ++ [(out_rttm_file, snd st)])).
Proof.
  intros H Hw. unfold do_spec_clustering, bindM, logger_info, write_rttm.
  rewrite H. cbn [log files rng warnings]. rewrite Hw. reflexivity.
Qed.

(** ** Segment names and recording ids *)

Lemma break_at_some c l b a :
  PyStr.break_at c l = Some (b, a) -> l = b ++ c :: a /\ ~ In c b.
Proof.
  revert b a. induction l as [|x tl IH]; intros b a H; cbn [PyStr.break_at] in H.
  - discriminate H.
  - destruct (Ascii.eqb_spec x c) as [->|Hne].
    + inversion H; subst. split; [reflexivity | intros []].
    + destruct (PyStr.break_at c tl) as [[b' a']|]; [|discriminate H].
      inversion H; subst. destruct (IH b' a eq_refl) as [-> Hb].
      split; [reflexivity|]. intros [E|E]; [congruence | exact (Hb E)].
Qed.

Lemma break_at_none c l : PyStr.break_at c l = None -> ~ In c l.
Proof.
  induction l as [|x tl IH]; cbn [PyStr.break_at]; intros H; [intros []|].
  destruct (Ascii.eqb_spec x c) as [->|Hne]; [discriminate H|].
  destruct (PyStr.break_at c tl) as [[b a]|]; [discriminate H|].
  intros [E|E]; [congruence | exact (IH eq_refl E)].
Qed.

Lemma break_at_app c l x :
  PyStr.break_at c (l ++ c :: x)
  = match PyStr.break_at c l with
    | Some (b, a) => Some (b, a ++ c :: x)
    | None => Some (l, x)
    end.
Proof.
  induction l as [|y tl IH]; cbn [PyStr.break_at app].
  - rewrite Ascii.eqb_refl. reflexivity.
  - destruct (Ascii.eqb y c); [reflexivity|].
    rewrite IH. destruct (PyStr.break_at c tl) as [[b a]|]; reflexivity.
Qed.

Lemma join_chars_snoc c ps p :
  ps <> [] -> join_chars c (ps ++ [p]) = join_chars c ps ++ c :: p.
Proof.
  induction ps as [|q [|q' tl] IH]; intros Hne; [congruence | reflexivity |].
  change (join_chars c ((q :: q' :: tl) ++ [p]))
    with (q ++ c :: join_chars c ((q' :: tl) ++ [p])).
  rewrite IH by discriminate.
  change (join_chars c (q :: q' :: tl)) with (q ++ c :: join_chars c (q' :: tl)).
  rewrite <- app_assoc. reflexivity.
Qed.

(** The pieces of the reversed text, last piece first: there is at least
    one and at most [maxsplit + 1]; joined in the order of the text they
    give the text back; all but the first piece of the text are free of
    the separator. *)
Lemma rsplit_rev_spec c n :
  forall r,
    rsplit_rev_ok c n r.
Proof.
  induction n as [|n IH]; intros r; unfold rsplit_rev_ok; cbn [PyStr.rsplit_rev].
  - split; [cbn; lia|]. split; [cbn; lia|]. split; [reflexivity|]. intros p [].
  - destruct (PyStr.break_at c r) as [[b a]|] eqn:E.
    + destruct (break_at_some _ _ _ _ E) as [-> Hb].
      destruct (IH a) as (Hne & Hlen & Hjoin & Hfree).
      assert (Hnil : rev (PyStr.rsplit_rev c n a) <> []).
      { intros H. apply (f_equal (@List.length _)) in H.
        rewrite length_rev in H. cbn in H. lia. }
      split; [cbn; lia|]. split; [cbn [List.length]; lia|]. split.
      * cbn [rev]. rewrite join_chars_snoc by exact Hnil.
        rewrite rev_app_distr. cbn [rev]. rewrite <- app_assoc. cbn [app].
        rewrite Hjoin. reflexivity.
      * intros p Hp. rewrite removelast_firstn_len in Hp. cbn [List.length] in Hp.
        destruct (PyStr.rsplit_rev c n a) as [|q tl] eqn:Eq; [cbn in Hne; lia|].
        cbn [firstn] in Hp. destruct Hp as [<-|Hp].
        -- intros H. apply in_rev in H. exact (Hb H).
        -- apply Hfree. rewrite removelast_firstn_len. cbn [List.length].
           replace (Nat.pred (S (List.length tl))) with (List.length tl) by lia.
           replace (Nat.pred (S (S (List.length tl)))) with (S (List.length tl)) in Hp by lia.
           cbn [Nat.pred] in Hp. exact Hp.
    + split; [cbn; lia|]. split; [cbn; lia|]. split; [reflexivity|]. intros p [].
Qed.

Lemma tl_rev {A : Type} (l : list A) : tl (rev l) = rev (removelast l).
Proof.
  destruct l as [|x l] using rev_ind; [reflexivity|].
  rewrite rev_app_distr, removelast_last. reflexivity.
Qed.

Lemma map_ascii_roundtrip (ps : list (list ascii)) :
  map list_ascii_of_string (map string_of_list_ascii ps) = ps.
Proof.
  induction ps as [|p tl IH]; cbn [map]; [reflexivity|].
  rewrite list_ascii_of_string_of_list_ascii, IH. reflexivity.
Qed.

Lemma rsplit_spec (c : ascii) (n : nat) (s : string) :
  (1 <= List.length (PyStr.rsplit c n s))%nat /\
  (List.length (PyStr.rsplit c n s) <= S n)%nat /\
  list_ascii_of_string s
  = join_chars c (map list_ascii_of_string (PyStr.rsplit c n s)) /\
  (forall p, In p (tl (PyStr.rsplit c n s)) -> ~ In c (list_ascii_of_string p)).
Proof.
  unfold PyStr.rsplit.
  destruct (rsplit_rev_spec c n (rev (list_ascii_of_string s)))
    as (Hne & Hlen & Hjoin & Hfree).
  rewrite length_map, length_rev, map_ascii_roundtrip, <- Hjoin, rev_involutive.
  split; [exact Hne|]. split; [exact Hlen|]. split; [reflexivity|].
  intros p Hp.
  assert (Hin : In (list_ascii_of_string p)
                   (tl (rev (PyStr.rsplit_rev c n (rev (list_ascii_of_string s)))))).
  { destruct (rev (PyStr.rsplit_rev c n (rev (list_ascii_of_string s))))
      as [|r0 R]; cbn [map tl] in *; [contradiction|].
    apply in_map_iff in Hp. destruct Hp as (q & <- & Hq).
    rewrite list_ascii_of_string_of_list_ascii. exact Hq. }
  rewrite tl_rev in Hin. apply in_rev in Hin. apply Hfree. exact Hin.
Qed.

(** X1: [s.rsplit(c, n)] returns between one and [n + 1] pieces; joined
    with the separator they give [s] back; and every piece after the first
    is free of the separator. *)
Theorem rsplit_joins_back (c : ascii) (n : nat) (s : string) :
  (1 <= List.length (PyStr.rsplit c n s))%nat /\
  (List.length (PyStr.rsplit c n s) <= S n)%nat /\
  list_ascii_of_string s
  = join_chars c (map list_ascii_of_string (PyStr.rsplit c n s)) /\
  (forall p, In p (tl (PyStr.rsplit c n s)) -> ~ In c (list_ascii_of_string p)).
Proof. exact (rsplit_spec c n s). Qed.

Lemma string_of_list_ascii_inj_back (s : string) (l : list ascii) :
  list_ascii_of_string s = l -> s = string_of_list_ascii l.
Proof. intros <-. symmetry. apply string_of_list_ascii_of_string. Qed.

(** X2: the recording id that [diarize_dataset] reads off a name with
    [split("_")[0]] is the first field of the recording id that the label
    loop parses from the same name with [rsplit("_", 2)]; the two ids are
    the same exactly when the parsed one contains no underscore. *)
Theorem first_field_of_parsed_rec_id (s : string) :
  Csv.first_field s = Csv.first_field (parsed_rec_id s) /\
  (Csv.first_field s = parsed_rec_id s <->
   ~ In "_"%char (list_ascii_of_string (parsed_rec_id s))).
Proof.
  assert (H1 : Csv.first_field s = Csv.first_field (parsed_rec_id s)).
  { destruct (rsplit_spec "_" 2 s) as (Hne & _ & Hjoin & _).
    unfold parsed_rec_id.
    destruct (PyStr.rsplit "_" 2 s) as [|p0 [|p1 rest]]; [cbn in Hne; lia | |].
    - cbn in Hjoin. cbn [nth].
      rewrite (string_of_list_ascii_inj_back _ _ Hjoin).
      rewrite string_of_list_ascii_of_string. reflexivity.
    - cbn [nth].
      change (list_ascii_of_string s
              = list_ascii_of_string p0
                ++ "_"%char :: join_chars "_" (map list_ascii_of_string (p1 :: rest)))
        in Hjoin.
      unfold Csv.first_field. rewrite Hjoin, break_at_app.
      destruct (PyStr.break_at "_" (list_ascii_of_string p0)) as [[b a]|];
        [reflexivity | apply string_of_list_ascii_of_string]. }
  split; [exact H1|]. rewrite H1. unfold Csv.first_field.
  destruct (PyStr.break_at "_" (list_ascii_of_string (parsed_rec_id s)))
    as [[b a]|] eqn:E.
  - destruct (break_at_some _ _ _ _ E) as [Hl Hb]. split.
    + intros Heq. exfalso. apply (f_equal list_ascii_of_string) in Heq.
      rewrite list_ascii_of_string_of_list_ascii, Hl in Heq.
      apply (f_equal (@List.length _)) in Heq. rewrite length_app in Heq.
      cbn [List.length] in Heq. lia.
    + intros Hno. exfalso. apply Hno. rewrite Hl. apply in_elt.
  - split; [intros _; apply (break_at_none _ _ E) | reflexivity].
Qed.

(** ** Success and failure of the label loop *)

Lemma label_step_ok_iff labels subseg_ids r0 l0 i st :
  label_step labels subseg_ids (r0, l0) i = OK st <->
  exists s r qa qb,
    nth_error subseg_ids i = Some s /\ parse_name s = Some (r, qa, qb) /\
    st = (r, l0 ++ [mkEntry r qa qb
                      (r0 ++ "_" ++ PyStr.str_of_nat (nth i labels 0%nat))%string]).
Proof.
  unfold label_step.
  destruct (nth_error subseg_ids i) as [s|]; cbn [bind];
    [|split; [discriminate | intros (s' & r & qa & qb & Hs & _); discriminate Hs]].
  transitivity
    (exists r qa qb,
       parse_name s = Some (r, qa, qb) /\
       st = (r, l0 ++ [mkEntry r qa qb
                         (r0 ++ "_" ++ PyStr.str_of_nat (nth i labels 0%nat))%string])).
  2: { split.
       - intros (r & qa & qb & Hp & Hst). exists s, r, qa, qb. auto.
       - intros (s' & r & qa & qb & Hs & Hp & Hst). inversion Hs; subst s'.
         exists r, qa, qb. auto. }
  unfold parse_name.
  destruct (nth_error (PyStr.rsplit "_" 2 s) 1) as [a|]; cbn [bind];
    [|split; [discriminate | intros (r & qa & qb & Hp & _); discriminate Hp]].
  destruct (py_float a) as [qa|]; cbn [bind];
    [|split; [discriminate | intros (r & qa & qb & Hp & _);
              destruct (nth_error (PyStr.rsplit "_" 2 s) 2); discriminate Hp]].
  destruct (nth_error (PyStr.rsplit "_" 2 s) 2) as [b|]; cbn [bind];
    [|split; [discriminate | intros (r & qa' & qb & Hp & _); discriminate Hp]].
  destruct (py_float b) as [qb|]; cbn [bind];
    [|split; [discriminate | intros (r & qa' & qb & Hp & _); discriminate Hp]].
  split.
  - intros H. inversion H. eexists; eexists; eexists. split; reflexivity.
  - intros (r & qa' & qb' & Hp & ->). inversion Hp; subst. reflexivity.
Qed.

Lemma label_step_raises labels subseg_ids st i e :
  label_step labels subseg_ids st i = Raise e -> e = IndexError \/ e = ValueError.
Proof.
  unfold label_step. destruct st as [r0 l0].
  destruct (nth_error subseg_ids i) as [s|]; cbn [bind];
    [|intros H; inversion H; left; reflexivity].
  destruct (nth_error (PyStr.rsplit "_" 2 s) 1) as [a|]; cbn [bind];
    [|intros H; inversion H; left; reflexivity].
  destruct (py_float a) as [qa|]; cbn [bind];
    [|intros H; inversion H; right; reflexivity].
  destruct (nth_error (PyStr.rsplit "_" 2 s) 2) as [b|]; cbn [bind];
    [|intros H; inversion H; left; reflexivity].
  destruct (py_float b) as [qb|]; cbn [bind];
    [discriminate | intros H; inversion H; right; reflexivity].
Qed.

Lemma parse_name_rec_id s r qa qb :
  parse_name s = Some (r, qa, qb) -> r = parsed_rec_id s.
Proof.
  unfold parse_name, parsed_rec_id.
  destruct (nth_error (PyStr.rsplit "_" 2 s) 1) as [a|]; [|discriminate].
  destruct (nth_error (PyStr.rsplit "_" 2 s) 2) as [b|]; [|discriminate].
  destruct (py_float a), (py_float b); try discriminate.
  intros H; inversion H; reflexivity.
Qed.

Lemma label_loop_ok_iff labels subseg_ids n :
  forall a r0 l0,
    (exists st, label_loop labels subseg_ids (seq a n) (r0, l0) = OK st) <->
    (forall i, (i < n)%nat ->
       exists s, nth_error subseg_ids (a + i) = Some s /\ parse_name s <> None).
Proof.
  induction n as [|n IH]; intros a r0 l0; cbn [seq label_loop].
  - split; [intros _ i Hi; lia | intros _; eexists; reflexivity].
  - split.
    + intros [st H].
      destruct (label_step labels subseg_ids (r0, l0) a) as [st1|e] eqn:E;
        cbn [bind] in H; [|discriminate H].
      apply label_step_ok_iff in E. destruct E as (s & r & qa & qb & Hs & Hp & ->).
      intros [|i] Hi.
      * rewrite Nat.add_0_r. exists s. split; [exact Hs | congruence].
      * replace (a + S i)%nat with (S a + i)%nat by lia.
        refine (proj1 (IH (S a) _ _) _ i _); [exists st; exact H | lia].
    + intros Hall.
      destruct (Hall 0%nat ltac:(lia)) as (s & Hs & Hp).
      rewrite Nat.add_0_r in Hs.
      destruct (parse_name s) as [[[r qa] qb]|] eqn:Ep; [|congruence].
      assert (E : label_step labels subseg_ids (r0, l0) a
                  = OK (r, l0 ++ [mkEntry r qa qb
                         (r0 ++ "_" ++ PyStr.str_of_nat (nth a labels 0%nat))%string])).
      { apply label_step_ok_iff. exists s, r, qa, qb. repeat split; assumption. }
      rewrite E. cbn [bind]. apply IH.
      intros i Hi. replace (S a + i)%nat with (a + S i)%nat by lia.
      apply Hall. lia.
Qed.

Lemma label_loop_raises labels subseg_ids range :
  forall st e,
    label_loop labels subseg_ids range st = Raise e -> e = IndexError \/ e = ValueError.
Proof.
  induction range as [|i tl IH]; intros st e; cbn [label_loop]; [discriminate|].
  destruct (label_step labels subseg_ids st i) as [st1|e1] eqn:E; cbn [bind].
  - apply IH.
  - intros H; inversion H; subst. apply (label_step_raises _ _ _ _ _ E).
Qed.

(** X3: the label loop returns a list exactly when every label has a
    segment name and every such name has two trailing fields that are
    numbers; otherwise it raises [IndexError] or [ValueError].  In
    particular it fails when there are fewer names than labels. *)
Theorem label_loop_succeeds_iff_names_parse labels subseg_ids rec0 :
  (is_ok (labels_to_boundaries labels subseg_ids rec0) = true <->
   forall i, (i < List.length labels)%nat ->
     exists s, nth_error subseg_ids i = Some s /\ parse_name s <> None) /\
  (forall e, labels_to_boundaries labels subseg_ids rec0 = Raise e ->
     e = IndexError \/ e = ValueError) /\
  ((List.length subseg_ids < List.length labels)%nat ->
   is_ok (labels_to_boundaries labels subseg_ids rec0) = false).
Proof.
  unfold labels_to_boundaries.
  assert (Hiff : is_ok (label_loop labels subseg_ids (seq 0 (List.length labels)) (rec0, []))
                 = true <->
                 forall i, (i < List.length labels)%nat ->
                   exists s, nth_error subseg_ids i = Some s /\ parse_name s <> None).
  { rewrite <- (label_loop_ok_iff labels subseg_ids (List.length labels) 0 rec0 []).
    destruct (label_loop labels subseg_ids (seq 0 (List.length labels)) (rec0, []))
      as [st|e]; cbn [is_ok].
    - split; [intros _; exists st; reflexivity | reflexivity].
    - split; [discriminate | intros [st H]; discriminate H]. }
  split; [exact Hiff|]. split; [apply label_loop_raises|].
  intros Hlen.
  destruct (is_ok (label_loop labels subseg_ids (seq 0 (List.length labels)) (rec0, [])))
    eqn:E; [|reflexivity].
  exfalso. destruct (proj1 Hiff eq_refl (List.length subseg_ids) Hlen) as (s & Hs & _).
  assert (Hnone : nth_error subseg_ids (List.length subseg_ids) = None)
    by (apply nth_error_None; lia).
  congruence.
Qed.

(** X4: when the loop succeeds and every segment name in use parses to the
    recording id the caller passed, every entry carries that recording id
    and a speaker id made of it, an underscore and the entry's label. *)
Theorem label_loop_uniform_rec_id labels subseg_ids rec0 r lol :
  labels_to_boundaries labels subseg_ids rec0 = OK (r, lol) ->
  (forall i, (i < List.length labels)%nat ->
     parsed_rec_id (nth i subseg_ids ""%string) = rec0) ->
  r = rec0 /\
  forall i, (i < List.length labels)%nat ->
    rec_id (nth i lol dummy_entry) = rec0 /\
    spkr_id (nth i lol dummy_entry)
    = (rec0 ++ "_" ++ PyStr.str_of_nat (nth i labels 0%nat))%string.
Proof.
  unfold labels_to_boundaries. intros H Huni.
  destruct (label_loop_inv _ _ _ _ _ _ _ _ H) as (new & -> & Hlen & Hr & Hall).
  cbn [skipn app Nat.add] in *.
  assert (Hbefore : forall i, (i <= List.length labels)%nat ->
            rec_id_before rec0 subseg_ids i = rec0).
  { intros [|i] Hi; cbn [rec_id_before]; [reflexivity | apply Huni; lia]. }
  split; [rewrite Hr; apply Hbefore; lia|].
  intros i Hi. destruct (Hall i Hi) as [Hs Hrec].
  rewrite Hs, Hrec, Hbefore by lia. split; [apply Huni; exact Hi | reflexivity].
Qed.

(** ** The recording ids of a dataset *)

Lemma ascii_compare_trans_lt a b c :
  Ascii.compare a b = Lt -> Ascii.compare b c = Lt -> Ascii.compare a c = Lt.
Proof.
  unfold Ascii.compare. rewrite !N.compare_lt_iff. lia.
Qed.

Lemma string_compare_refl s : String.compare s s = Eq.
Proof.
  induction s as [|a s IH]; cbn [String.compare]; [reflexivity|].
  unfold Ascii.compare. rewrite N.compare_refl. exact IH.
Qed.

Lemma string_compare_trans_lt s1 :
  forall s2 s3,
    String.compare s1 s2 = Lt -> String.compare s2 s3 = Lt -> String.compare s1 s3 = Lt.
Proof.
  induction s1 as [|a s1 IH]; intros [|b s2] [|c s3]; cbn [String.compare];
    try discriminate; try reflexivity.
  destruct (Ascii.compare a b) eqn:Eab; try discriminate;
    destruct (Ascii.compare b c) eqn:Ebc; try discriminate; intros H1 H2.
  - apply Ascii.compare_eq_iff in Eab, Ebc. subst.
    unfold Ascii.compare. rewrite N.compare_refl. apply (IH _ _ H1 H2).
  - apply Ascii.compare_eq_iff in Eab. subst. rewrite Ebc. reflexivity.
  - apply Ascii.compare_eq_iff in Ebc. subst. rewrite Eab. reflexivity.
  - rewrite (ascii_compare_trans_lt _ _ _ Eab Ebc). reflexivity.
Qed.

Lemma str_le_cases a b : str_le a b <-> a = b \/ str_lt a b.
Proof.
  unfold str_le, str_lt, String.leb, String.ltb.
  destruct (String.compare a b) eqn:E.
  - apply String.compare_eq_iff in E. split; [left; exact E | reflexivity].
  - split; [right; reflexivity | reflexivity].
  - split; [discriminate | intros [->|H]; [|discriminate H]].
    rewrite string_compare_refl in E. discriminate E.
Qed.

Lemma str_lt_trans a b c : str_lt a b -> str_lt b c -> str_lt a c.
Proof.
  unfold str_lt, String.ltb. intros H1 H2.
  destruct (String.compare a b) eqn:E1; try discriminate.
  destruct (String.compare b c) eqn:E2; try discriminate.
  rewrite (string_compare_trans_lt _ _ _ E1 E2). reflexivity.
Qed.

Lemma str_le_trans a b c : str_le a b -> str_le b c -> str_le a c.
Proof.
  rewrite !str_le_cases. intros [->|H1] [->|H2]; auto.
  right. apply (str_lt_trans _ _ _ H1 H2).
Qed.

Lemma str_lt_irrefl a : ~ str_lt a a.
Proof.
  unfold str_lt, String.ltb. rewrite string_compare_refl. discriminate.
Qed.

Lemma insert_str_perm s l : Permutation (Csv.insert_str s l) (s :: l).
Proof.
  induction l as [|x tl IH]; cbn [Csv.insert_str]; [apply Permutation_refl|].
  destruct (String.leb s x); [apply Permutation_refl|].
  apply perm_trans with (x :: s :: tl); [apply perm_skip; exact IH | apply perm_swap].
Qed.

Lemma sort_str_perm l : Permutation (Csv.sort_str l) l.
Proof.
  induction l as [|x tl IH]; cbn [Csv.sort_str fold_right]; [apply perm_nil|].
  apply perm_trans with (x :: Csv.sort_str tl); [apply insert_str_perm|].
  apply perm_skip. exact IH.
Qed.

Lemma insert_str_sorted s l :
  StronglySorted str_le l -> StronglySorted str_le (Csv.insert_str s l).
Proof.
  induction l as [|x tl IH]; cbn [Csv.insert_str]; intros Hs.
  - constructor; constructor.
  - apply StronglySorted_inv in Hs. destruct Hs as [Htl Hx].
    destruct (String.leb s x) eqn:E.
    + constructor; [constructor; assumption|].
      constructor; [exact E|].
      apply Forall_forall. intros y Hy. rewrite Forall_forall in Hx.
      apply (str_le_trans _ x); [exact E | apply Hx; exact Hy].
    + constructor; [apply IH; exact Htl|].
      apply Forall_forall. intros y Hy.
      apply (Permutation_in _ (insert_str_perm s tl)) in Hy.
      destruct Hy as [<-|Hy].
      * destruct (String.leb_total s x) as [H|H]; [congruence | exact H].
      * rewrite Forall_forall in Hx. apply Hx. exact Hy.
Qed.

Lemma sort_str_sorted l : StronglySorted str_le (Csv.sort_str l).
Proof.
  induction l as [|x tl IH]; cbn [Csv.sort_str fold_right]; [constructor|].
  apply insert_str_sorted. exact IH.
Qed.

Lemma sorted_perm_unique l :
  forall l',
    StronglySorted str_le l -> StronglySorted str_le l' -> Permutation l l' -> l = l'.
Proof.
  induction l as [|x tl IH]; intros l' Hs Hs' Hp.
  - apply Permutation_nil in Hp. congruence.
  - destruct l' as [|y tl']; [apply Permutation_sym, Permutation_nil in Hp; discriminate|].
    apply StronglySorted_inv in Hs, Hs'.
    destruct Hs as [Htl Hx], Hs' as [Htl' Hy]. rewrite Forall_forall in Hx, Hy.
    assert (Exy : x = y).
    { assert (Hxy : str_le y x).
      { destruct (Permutation_in _ Hp (or_introl eq_refl)) as [->|Hin];
          [apply str_le_cases; left; reflexivity | apply Hy; exact Hin]. }
      assert (Hyx : str_le x y).
      { destruct (Permutation_in _ (Permutation_sym Hp) (or_introl eq_refl)) as [->|Hin];
          [apply str_le_cases; left; reflexivity | apply Hx; exact Hin]. }
      apply String.leb_antisym; assumption. }
    subst y. f_equal. apply IH; try assumption.
    apply (Permutation_cons_inv Hp).
Qed.

Lemma sort_str_perm_eq l l' :
  Permutation l l' -> Csv.sort_str l = Csv.sort_str l'.
Proof.
  intros Hp. apply sorted_perm_unique; try apply sort_str_sorted.
  apply perm_trans with l; [apply sort_str_perm|].
  apply perm_trans with l'; [exact Hp | apply Permutation_sym, sort_str_perm].
Qed.

Lemma sorted_nodup_strict l :
  StronglySorted str_le l -> NoDup l -> StronglySorted str_lt l.
Proof.
  induction l as [|x tl IH]; intros Hs Hn; [constructor|].
  apply StronglySorted_inv in Hs. destruct Hs as [Htl Hx].
  inversion Hn as [|? ? Hnotin Hn']; subst.
  constructor; [apply IH; assumption|].
  rewrite Forall_forall in *. intros y Hy.
  destruct (proj1 (str_le_cases x y) (Hx y Hy)) as [->|H]; [contradiction | exact H].
Qed.

Lemma rec_id_column_ok_iff csv A :
  Csv.rec_id_column csv = OK A <->
  Forall (fun row => row <> []) csv /\ A = map row_rec_id csv.
Proof.
  revert A. induction csv as [|row rows IH]; intros A; cbn [Csv.rec_id_column map].
  - split; [intros H; inversion H; split; [constructor | reflexivity]|].
    intros [_ ->]. reflexivity.
  - destruct row as [|c rest]; cbn [bind].
    + split; [discriminate|]. intros [H _]. inversion H; congruence.
    + destruct (Csv.rec_id_column rows) as [tl|e] eqn:E; cbn [bind].
      * destruct (proj1 (IH tl) eq_refl) as [Hall ->]. split.
        -- intros H. inversion H. split; [constructor; [discriminate | exact Hall]|].
           reflexivity.
        -- intros [_ ->]. reflexivity.
      * split; [discriminate|]. intros [H _]. inversion H; subst.
        assert (Hok : Raise e = OK (map row_rec_id rows))
          by (apply IH; split; [assumption | reflexivity]).
        discriminate Hok.
Qed.

Lemma rec_id_column_raises csv e :
  Csv.rec_id_column csv = Raise e -> e = IndexError /\ Exists (fun row => row = []) csv.
Proof.
  induction csv as [|row rows IH]; cbn [Csv.rec_id_column]; [discriminate|].
  destruct row as [|c rest]; cbn [bind].
  - intros H; inversion H. split; [reflexivity | left; reflexivity].
  - destruct (Csv.rec_id_column rows) as [tl|e']; cbn [bind]; [discriminate|].
    intros H; inversion H; subst. destruct (IH eq_refl) as [-> Hex].
    split; [reflexivity | right; exact Hex].
Qed.

(** X5: when [all_rec_ids] is computed, it is in strictly ascending order
    (so no id comes twice), and it holds exactly the ids read off the rows
    after the first one; the first row, the header, gives no id. *)
Theorem all_rec_ids_sorted_distinct csv ids :
  Csv.all_rec_ids csv = OK ids ->
  StronglySorted str_lt ids /\ NoDup ids /\
  forall r, In r ids <-> exists row, In row (tl csv) /\ row_rec_id row = r.
Proof.
  unfold Csv.all_rec_ids.
  destruct (Csv.rec_id_column csv) as [A|e] eqn:E; cbn [bind]; [|discriminate].
  intros H; inversion H; subst ids; clear H.
  apply rec_id_column_ok_iff in E. destruct E as [_ ->].
  assert (Hn : NoDup (Csv.sort_str (nodup string_dec (tl (map row_rec_id csv))))).
  { apply (Permutation_NoDup (Permutation_sym (sort_str_perm _))). apply NoDup_nodup. }
  split; [apply sorted_nodup_strict; [apply sort_str_sorted | exact Hn]|].
  split; [exact Hn|].
  intros r. split.
  - intros Hin. apply (Permutation_in _ (sort_str_perm _)) in Hin.
    apply nodup_In in Hin. destruct csv as [|hd rows]; [contradiction|].
    cbn [map tl] in *. apply in_map_iff in Hin. destruct Hin as (row & Hr & Hrow).
    exists row. split; assumption.
  - intros (row & Hrow & <-).
    apply (Permutation_in _ (Permutation_sym (sort_str_perm _))).
    apply nodup_In. destruct csv as [|hd rows]; [contradiction|].
    cbn [map tl] in *. apply in_map. exact Hrow.
Qed.

(** X6: [all_rec_ids] fails exactly when some row of the csv, the header
    included, is empty (a blank line), and then with [IndexError]. *)
Theorem all_rec_ids_fails_on_empty_row csv :
  (is_ok (Csv.all_rec_ids csv) = false <-> Exists (fun row => row = []) csv) /\
  (forall e, Csv.all_rec_ids csv = Raise e -> e = IndexError).
Proof.
  unfold Csv.all_rec_ids.
  destruct (Csv.rec_id_column csv) as [A|e] eqn:E; cbn [bind is_ok].
  - split; [|discriminate]. split; [discriminate|].
    intros Hex. apply rec_id_column_ok_iff in E. destruct E as [Hall _].
    apply Exists_exists in Hex. destruct Hex as (row & Hin & ->).
    rewrite Forall_forall in Hall. exfalso. apply (Hall [] Hin). reflexivity.
  - destruct (rec_id_column_raises _ _ E) as [-> Hex].
    split; [split; [intros _; exact Hex | reflexivity]|].
    intros e H. inversion H. reflexivity.
Qed.

(** X7: the order in which the set of line 311 lists its elements does
    not matter: sorting any duplicate-free list with the elements of
    [A[1:]] gives [all_rec_ids]. *)
Theorem sort_str_order_irrelevant csv ids (listing : list string) :
  Csv.all_rec_ids csv = OK ids ->
  NoDup listing ->
  (forall r, In r listing <-> In r (tl (map row_rec_id csv))) ->
  Csv.sort_str listing = ids.
Proof.
  unfold Csv.all_rec_ids.
  destruct (Csv.rec_id_column csv) as [A|e] eqn:E; cbn [bind]; [|discriminate].
  intros H Hn Hsame. inversion H; subst ids; clear H.
  apply rec_id_column_ok_iff in E. destruct E as [_ ->].
  apply sort_str_perm_eq. apply NoDup_Permutation; [exact Hn | apply NoDup_nodup|].
  intros r. rewrite Hsame. symmetry. apply nodup_In.
Qed.

(** ** The tuned number of speakers *)

Lemma Qlt_bool_iff x y : Qlt_bool x y = true <-> x < y.
Proof.
  unfold Qlt_bool. rewrite negb_true_iff.
  destruct (Qle_bool y x) eqn:E.
  - apply Qle_bool_iff in E. split; [discriminate | intros H; lra].
  - split; [intros _ | reflexivity].
    apply Qnot_le_lt. intros H. apply Qle_bool_iff in H. congruence.
Qed.

Lemma min_from_spec l :
  forall m,
    PyList.min_from m l <= m /\
    (forall x, In x l -> PyList.min_from m l <= x) /\
    (PyList.min_from m l = m \/ In (PyList.min_from m l) l).
Proof.
  induction l as [|x tl IH]; intros m; cbn [PyList.min_from].
  - split; [apply Qle_refl|]. split; [intros x []| left; reflexivity].
  - destruct (IH (if Qlt_bool x m then x else m)) as (H1 & H2 & H3).
    destruct (Qlt_bool x m) eqn:E.
    + apply Qlt_bool_iff in E. split; [lra|]. split.
      * intros y [<-|Hy]; [exact H1 | apply H2; exact Hy].
      * right. destruct H3 as [->|H3]; [left; reflexivity | right; exact H3].
    + assert (Hmx : m <= x).
      { apply Qnot_lt_le. intros H. apply Qlt_bool_iff in H. congruence. }
      split; [exact H1|]. split.
      * intros y [<-|Hy]; [lra | apply H2; exact Hy].
      * destruct H3 as [H3|H3]; [left; exact H3 | right; right; exact H3].
Qed.

Lemma index_spec v l :
  (exists x, In x l /\ x == v) ->
  exists i, PyList.index v l = OK i /\ (i < List.length l)%nat /\
            nth i l 0 == v /\ forall j, (j < i)%nat -> ~ nth j l 0 == v.
Proof.
  induction l as [|x tl IH]; intros (y & Hy & Hv); [contradiction|].
  cbn [PyList.index]. destruct (Qeq_bool x v) eqn:E.
  - exists 0%nat. apply Qeq_bool_iff in E.
    split; [reflexivity|]. split; [cbn; lia|]. split; [exact E|]. intros j Hj; lia.
  - assert (Hne : ~ x == v) by (intros H; apply Qeq_bool_iff in H; congruence).
    destruct Hy as [->|Hy]; [contradiction|].
    destruct (IH (ex_intro _ y (conj Hy Hv))) as (i & Hi & Hlen & Hnth & Hfirst).
    exists (S i). rewrite Hi. cbn [bind List.length nth].
    split; [reflexivity|]. split; [lia|]. split; [exact Hnth|].
    intros [|j] Hj; cbn [nth]; [exact Hne | apply Hfirst; lia].
Qed.

Lemma tuned_n_lambdas_spec DER_list :
  DER_list <> [] ->
  exists t,
    tuned_n_lambdas DER_list = OK t /\
    (1 <= t)%nat /\ (t <= List.length DER_list)%nat /\
    (forall j, (j < List.length DER_list)%nat ->
       nth (t - 1) DER_list 0 <= nth j DER_list 0) /\
    (forall j, (j < t - 1)%nat -> nth (t - 1) DER_list 0 < nth j DER_list 0).
Proof.
  destruct DER_list as [|x tl]; [congruence|]. intros _.
  unfold tuned_n_lambdas. cbn [PyList.min bind].
  destruct (min_from_spec tl x) as (H1 & H2 & H3).
  set (m := PyList.min_from x tl) in *.
  assert (Hall : forall y, In y (x :: tl) -> m <= y)
    by (intros y [<-|Hy]; [exact H1 | apply H2; exact Hy]).
  assert (Hin : exists y, In y (x :: tl) /\ y == m).
  { exists m. split; [|reflexivity]. destruct H3 as [->|H3]; [left; reflexivity | right; exact H3]. }
  destruct (index_spec m (x :: tl) Hin) as (i & Hi & Hlen & Hnth & Hfirst).
  rewrite Hi. cbn [bind]. exists (i + 1)%nat.
  replace (i + 1 - 1)%nat with i by lia.
  split; [reflexivity|]. split; [lia|]. split; [lia|]. split.
  - intros j Hj. rewrite Hnth. apply Hall. apply nth_In. exact Hj.
  - intros j Hj. rewrite Hnth.
    assert (Hle : m <= nth j (x :: tl) 0) by (apply Hall, nth_In; lia).
    assert (Hne : ~ nth j (x :: tl) 0 == m) by (apply Hfirst; exact Hj).
    apply Qle_lteq in Hle. destruct Hle as [Hlt|Heq]; [exact Hlt|].
    exfalso. apply Hne. symmetry. exact Heq.
Qed.

Lemma tuner_loop_length candidates :
  forall acc w DER_list w',
    tuner_loop candidates acc w = (OK DER_list, w') ->
    List.length DER_list = (List.length acc + List.length candidates)%nat.
Proof.
  induction candidates as [|n tl IH]; intros acc w DER_list w'; cbn [tuner_loop].
  - unfold ret. intros H; inversion H. cbn; lia.
  - unfold bindM at 1. destruct (score_candidate n w) as [[d|e] w1]; [|discriminate].
    unfold bindM at 1, logger_info. intros H. apply IH in H.
    rewrite H, length_app. cbn; lia.
Qed.

(** X8: with no candidate ([max_num_spkrs = 0]) [dev_tuner] fails with
    [ValueError], the minimum of an empty list.  When it returns [t], every
    candidate from 1 to [max_num_spkrs] was scored, [t] is one of them, no
    candidate scored a lower error rate than [t], and every candidate
    below [t] scored a strictly higher one: ties go to the smallest
    count. *)
Theorem dev_tuner_returns_first_minimum (max_num_spkrs : nat) (w : world) :
  dev_tuner 0 w = (Raise ValueError, w) /\
  forall t w',
    dev_tuner max_num_spkrs w = (OK t, w') ->
    exists DER_list,
      tuner_loop (seq 1 max_num_spkrs) [] w = (OK DER_list, w') /\
      List.length DER_list = max_num_spkrs /\
      (1 <= t)%nat /\ (t <= max_num_spkrs)%nat /\
      (forall n, (1 <= n)%nat -> (n <= max_num_spkrs)%nat ->
         nth (t - 1) DER_list 0 <= nth (n - 1) DER_list 0) /\
      (forall n, (1 <= n)%nat -> (n < t)%nat ->
         nth (t - 1) DER_list 0 < nth (n - 1) DER_list 0).
Proof.
  split; [reflexivity|].
  intros t w'. unfold dev_tuner, bindM at 1.
  destruct (tuner_loop (seq 1 max_num_spkrs) [] w) as [[DER_list|e] w1] eqn:E;
    [|discriminate].
  unfold lift. intros H. injection H as Htuned Hw. subst w1.
  pose proof (tuner_loop_length _ _ _ _ _ E) as Hlen.
  rewrite length_seq in Hlen. cbn [List.length Nat.add] in Hlen.
  exists DER_list. split; [reflexivity|]. split; [exact Hlen|].
  destruct DER_list as [|x tl] eqn:El; [discriminate|]. rewrite <- El in *.
  destruct (tuned_n_lambdas_spec DER_list) as (t' & Ht & P1 & P2 & P3 & P4);
    [congruence|].
  assert (t' = t) by congruence. subst t'.
  split; [exact P1|]. split; [lia|]. split.
  - intros n Hn1 Hn2. apply P3. lia.
  - intros n Hn1 Hn2. apply P4. lia.
Qed.

(** ** What a run writes *)

Lemma spectral_clustering_sb_frame aff k nc rs n_init w r w1 :
  spectral_clustering_sb aff k nc rs n_init w = (r, w1) ->
  log w1 = log w /\ files w1 = files w.
Proof.
  unfold spectral_clustering_sb, bindM. rewrite spectral_embedding_sb_run.
  assert (Hw : log (with_warning w (graph_is_connected aff)) = log w /\
               files (with_warning w (graph_is_connected aff)) = files w)
    by (unfold with_warning; destruct (graph_is_connected aff); split; reflexivity).
  destruct (embedding_of aff _ true false) as [maps|e];
    [|intros H; inversion H; subst; exact Hw].
  unfold k_means. destruct (nrows maps <? k)%nat;
    [intros H; inversion H; subst; exact Hw|].
  destruct (check_random_state rs) as [|st0].
  - destruct (centroid_partition maps k _ n_init) as [labels st].
    intros H; inversion H; subst. cbn [log files]. exact Hw.
  - intros H; inversion H; subst. exact Hw.
Qed.

Lemma diarize_frame obj rec_id_ k w r w1 :
  diarize obj rec_id_ k w = (r, w1) -> log w1 = log w /\ files w1 = files w.
Proof.
  rewrite diarize_run.
  destruct (affinity_of (stat1 obj)) as [aff|e];
    [|intros H; inversion H; subst; split; reflexivity].
  destruct (spectral_clustering_sb aff k None None 10 w) as [[labels|e] w2] eqn:E;
    intros H; inversion H; subst; apply (spectral_clustering_sb_frame _ _ _ _ _ _ _ _ E).
Qed.

Lemma do_spec_clustering_all_or_nothing_files obj out_rttm_file rec_id_ k w r w' :
  do_spec_clustering obj out_rttm_file rec_id_ k w = (r, w') ->
  match r with
  | OK _ => exists turns, files w' = files w ++ [(out_rttm_file, turns)]
  | Raise _ => files w' = files w
  end.
Proof.
  unfold do_spec_clustering, bindM at 1.
  destruct (diarize obj rec_id_ k w) as [[st|e] w1] eqn:E;
    destruct (diarize_frame _ _ _ _ _ _ E) as [Hlog Hfiles].
  - unfold bindM, logger_info, write_rttm.
    destruct (writable out_rttm_file); intros H; inversion H; subst.
    + exists (snd st). cbn [files]. rewrite Hfiles. reflexivity.
    + cbn [files]. exact Hfiles.
  - intros H; inversion H; subst. exact Hfiles.
Qed.


Lemma diarize_one_files split_type dir info n_lambdas N i rec_id_ w r w' :
  (forall rec w0, files (snd (embeddings_for rec w0)) = files w0) ->
  diarize_one split_type dir info n_lambdas N i rec_id_ w = (r, w') ->
  match r with
  | OK _ => exists turns, files w' = files w ++ [(out_rttm_file_of dir rec_id_, turns)]
  | Raise _ => files w' = files w
  end.
Proof.
  intros Hemb. unfold diarize_one, bindM at 1, logger_info, bindM at 1.
  set (w0 := mkWorld (rng w) (warnings w) (log w ++ _) (files w)).
  specialize (Hemb rec_id_ w0).
  destruct (embeddings_for rec_id_ w0) as [[obj|e] w1]; cbn [snd] in Hemb.
  - unfold bindM at 1, lift.
    destruct (makedirs_if_missing dir) as [u|e].
    + intros H. apply do_spec_clustering_all_or_nothing_files in H.
      destruct r as [u'|e]; [destruct H as [turns H]; exists turns|];
        rewrite H, Hemb; reflexivity.
    + intros H; inversion H; subst. exact Hemb.
  - intros H; inversion H; subst. exact Hemb.
Qed.

Lemma diarize_loop_files split_type dir info n_lambdas N recs :
  (forall rec w0, files (snd (embeddings_for rec w0)) = files w0) ->
  forall i w r w',
    diarize_loop split_type dir info n_lambdas N i recs w = (r, w') ->
    exists written,
      files w' = files w ++ written /\
      map fst written
      = map (out_rttm_file_of dir) (firstn (List.length written) recs) /\
      match r with
      | OK _ => List.length written = List.length recs
      | Raise _ => (List.length written < List.length recs)%nat
      end.
Proof.
  intros Hemb. induction recs as [|rec tl IH]; intros i w r w'; cbn [diarize_loop].
  - unfold ret. intros H; inversion H; subst. exists [].
    rewrite app_nil_r. repeat split.
  - unfold bindM at 1.
    destruct (diarize_one split_type dir info n_lambdas N i rec w) as [[u|e] w1] eqn:E;
      pose proof (diarize_one_files _ _ _ _ _ _ _ _ _ _ Hemb E) as H1; cbn in H1.
    + destruct H1 as [turns H1]. intros H. apply IH in H.
      destruct H as (written & Hf & Hnames & Hr).
      exists ((out_rttm_file_of dir rec, turns) :: written).
      split; [rewrite Hf, H1, <- app_assoc; reflexivity|].
      split; [cbn [map fst List.length firstn]; rewrite Hnames; reflexivity|].
      destruct r; cbn [List.length]; lia.
    + intros H; inversion H; subst. exists [].
      rewrite app_nil_r. split; [exact H1|]. split; [reflexivity | cbn; lia].
Qed.

Lemma list_ascii_of_string_app a b :
  list_ascii_of_string (a ++ b)%string = list_ascii_of_string a ++ list_ascii_of_string b.
Proof.
  induction a as [|c a IH]; cbn [String.append list_ascii_of_string app];
    [reflexivity | rewrite IH; reflexivity].
Qed.

Lemma out_rttm_file_of_inj dir r r' :
  out_rttm_file_of dir r = out_rttm_file_of dir r' -> r = r'.
Proof.
  unfold out_rttm_file_of. intros H. apply (f_equal list_ascii_of_string) in H.
  rewrite !list_ascii_of_string_app in H.
  apply app_inv_head in H. apply app_inv_head in H. apply app_inv_tail in H.
  rewrite <- (string_of_list_ascii_of_string r), H.
  apply string_of_list_ascii_of_string.
Qed.

Lemma all_rec_ids_nodup csv ids : Csv.all_rec_ids csv = OK ids -> NoDup ids.
Proof.
  unfold Csv.all_rec_ids.
  destruct (Csv.rec_id_column csv) as [A|e]; cbn [bind]; [|discriminate].
  intros H; inversion H.
  apply (Permutation_NoDup (Permutation_sym (sort_str_perm _))). apply NoDup_nodup.
Qed.

Lemma first_field_no_underscore s :
  ~ In "_"%char (list_ascii_of_string (Csv.first_field s)).
Proof.
  unfold Csv.first_field.
  destruct (PyStr.break_at "_" (list_ascii_of_string s)) as [[b a]|] eqn:E.
  - rewrite list_ascii_of_string_of_list_ascii. apply (break_at_some _ _ _ _ E).
  - apply (break_at_none _ _ E).
Qed.

Lemma rec_id_column_fields csv A :
  Csv.rec_id_column csv = OK A ->
  forall r, In r A -> ~ In "_"%char (list_ascii_of_string r).
Proof.
  revert A. induction csv as [|row rows IH]; intros A; cbn [Csv.rec_id_column].
  - intros H; inversion H; subst. intros r [].
  - destruct row as [|c cs]; cbn [bind]; [intros H; discriminate H|].
    destruct (Csv.rec_id_column rows) as [tl|e]; cbn [bind]; [|intros H; discriminate H].
    intros H; inversion H; subst. intros r [<-|Hr].
    + apply first_field_no_underscore.
    + apply (IH tl eq_refl r Hr).
Qed.

Lemma all_rec_ids_no_underscore csv ids :
  Csv.all_rec_ids csv = OK ids ->
  forall r, In r ids -> ~ In "_"%char (list_ascii_of_string r).
Proof.
  unfold Csv.all_rec_ids.
  destruct (Csv.rec_id_column csv) as [A|e] eqn:E; cbn [bind]; [|discriminate].
  intros H; inversion H; subst. intros r Hr.
  apply (Permutation_in _ (sort_str_perm _)) in Hr. apply nodup_In in Hr.
  apply (rec_id_column_fields _ _ E).
  destruct A as [|a A]; [destruct Hr | right; exact Hr].
Qed.

Lemma concate_rttm_file_fresh dir r :
  ~ In "_"%char (list_ascii_of_string r) ->
  out_rttm_file_of dir r <> concate_rttm_file_of dir.
Proof.
  unfold out_rttm_file_of, concate_rttm_file_of. intros Hr H.
  apply (f_equal list_ascii_of_string) in H.
  rewrite !list_ascii_of_string_app in H.
  apply app_inv_head in H.
  change (list_ascii_of_string "/sys_output.rttm")
    with (list_ascii_of_string "/" ++ list_ascii_of_string "sys_output"
          ++ list_ascii_of_string ".rttm") in H.
  apply app_inv_head in H. apply app_inv_tail in H.
  apply Hr. rewrite H. cbn. tauto.
Qed.

Lemma prepare_ok csv split_type oracle ref_dir info ids :
  prepare csv split_type oracle ref_dir = OK (info, ids) ->
  read_spkr_info oracle ref_dir split_type = OK info /\
  Csv.all_rec_ids csv = OK ids /\
  load_embedding_model = OK tt.
Proof.
  unfold prepare.
  destruct (read_spkr_info oracle ref_dir split_type) as [info'|e]; cbn [bind];
    [|intros H; discriminate H].
  destruct (Csv.all_rec_ids csv) as [ids'|e]; cbn [bind]; [|intros H; discriminate H].
  destruct load_embedding_model as [[]|e]; cbn [bind]; [|intros H; discriminate H].
  intros H; inversion H; subst. repeat split.
Qed.

Lemma copy_rttm_files_raises c names fs :
  forall cat e cat',
    copy_rttm_files c names fs cat = (Raise e, cat') -> e = OSError.
Proof.
  induction names as [|f tl IH]; intros cat e cat'; cbn [copy_rttm_files].
  - intros H; discriminate H.
  - destruct (String.eqb f c); [apply IH|].
    destruct (read_file f fs) as [lines|]; [apply IH|].
    intros H; inversion H; reflexivity.
Qed.

Lemma concatenate_rttm_files split_type dir w r w' :
  concatenate_rttm split_type dir w = (r, w') ->
  match r with
  | OK f =>
      f = concate_rttm_file_of dir /\
      exists cat, files w' = files w ++ [(f, cat)]
  | Raise e =>
      e = OSError /\
      (files w' = files w \/
       exists cat, files w' = files w ++ [(concate_rttm_file_of dir, cat)])
  end.
Proof.
  unfold concatenate_rttm.
  destruct (writable (concate_rttm_file_of dir)).
  - destruct (copy_rttm_files _ _ _ _) as [[u|e] cat] eqn:Ec;
      intros H; inversion H; subst; cbn [files].
    + split; [reflexivity | exists cat; reflexivity].
    + split; [apply (copy_rttm_files_raises _ _ _ _ _ _ Ec)|].
      right. exists cat. reflexivity.
  - intros H; inversion H; subst. split; [reflexivity | left; reflexivity].
Qed.

(** X10: when [diarize_dataset] returns, it has written one file per
    recording id, in ascending order of the ids, each under
    [out_rttm_dir/<id>.rttm], and no file twice; after them it has written
    [out_rttm_dir/sys_output.rttm], the file it returns, whose name is that
    of no recording's file; and there was a recording id. *)
Theorem diarize_dataset_one_file_per_recording
    csv split_type dir oracle_n_spkrs ref_rttm_dir n_lambdas w f w' :
  (forall rec w0, files (snd (embeddings_for rec w0)) = files w0) ->
  diarize_dataset csv split_type dir oracle_n_spkrs ref_rttm_dir n_lambdas w
  = (OK f, w') ->
  exists ids written cat,
    Csv.all_rec_ids csv = OK ids /\ ids <> [] /\
    f = concate_rttm_file_of dir /\
    files w' = files w ++ written ++ [(f, cat)] /\
    map fst written = map (out_rttm_file_of dir) ids /\
    NoDup (map fst written) /\
    ~ In f (map fst written).
Proof.
  intros Hemb. unfold diarize_dataset, bindM at 1, lift.
  destruct (prepare csv split_type oracle_n_spkrs ref_rttm_dir) as [[info ids]|e] eqn:Ep;
    [|intros H; discriminate H].
  destruct (prepare_ok _ _ _ _ _ _ Ep) as (_ & Eids & _).
  cbn [fst snd]. unfold bindM at 1.
  destruct (diarize_loop split_type dir info n_lambdas (List.length ids) 1 ids w)
    as [[u|e] w1] eqn:El; [|intros H; discriminate H].
  apply (diarize_loop_files _ _ _ _ _ _ Hemb) in El.
  destruct El as (written & Hf & Hnames & Hlen). cbn in Hlen.
  rewrite Hlen, firstn_all in Hnames.
  destruct ids as [|r0 ids']; [intros H; discriminate H|].
  intros H. apply concatenate_rttm_files in H. cbn in H.
  destruct H as (-> & cat & Hcat).
  exists (r0 :: ids'), written, cat.
  split; [exact Eids|]. split; [intros X; discriminate X|]. split; [reflexivity|].
  split; [rewrite Hcat, Hf, <- app_assoc; reflexivity|].
  split; [exact Hnames|]. rewrite Hnames. split.
  - apply Finite.Injective_map_NoDup; [|apply (all_rec_ids_nodup _ _ Eids)].
    intros r r'. apply out_rttm_file_of_inj.
  - intros Hin. apply in_map_iff in Hin. destruct Hin as (r & Hr & Hin).
    apply (concate_rttm_file_fresh dir r); [|exact Hr].
    apply (all_rec_ids_no_underscore _ _ Eids r Hin).
Qed.


(** ** Symmetrizing twice *)

(** X12: the symmetrization of line 279 keeps the diagonal, and leaves
    every entry of a matrix that is symmetric already as it is; so
    symmetrizing a second time changes no entry. *)
Theorem symmetrize_idempotent (G : sparse) :
  dim (symmetrize G) = dim G /\
  (forall i, sp_entry (symmetrize G) i i == sp_entry G i i) /\
  ((forall i j, sp_entry G i j == sp_entry G j i) ->
   forall i j, sp_entry (symmetrize G) i j == sp_entry G i j) /\
  (forall i j,
     sp_entry (symmetrize (symmetrize G)) i j == sp_entry (symmetrize G) i j).
Proof.
  split; [reflexivity|]. split; [intros i; rewrite symmetrize_entry; ring|].
  split.
  - intros Hsym i j. rewrite symmetrize_entry, <- (Hsym i j). ring.
  - intros i j. rewrite !symmetrize_entry. ring.
Qed.

(** ** The embeddings of a recording *)

Lemma batches_loop_ok batches :
  forall ms ss E ns ms' ss' E' ns',
    batches_loop batches ms ss E ns = (OK (ms', ss', E'), ns') ->
    ms' = ms ++ List.concat (map fst batches) /\
    ss' = ss ++ List.concat (map fst batches) /\
    ncols E' = ncols E /\
    nrows E' = (nrows E + list_sum (map nrows (batch_embeddings batches ns)))%nat /\
    Forall (fun e => ncols e = ncols E) (batch_embeddings batches ns) /\
    forall p j, (p < nrows E')%nat ->
      item E' p j
      = if (p <? nrows E)%nat then item E p j
        else stack_item (batch_embeddings batches ns) (p - nrows E) j.
Proof.
  induction batches as [|[ids wavs] tl IH]; intros ms ss E ns ms' ss' E' ns';
    cbn [batches_loop batch_embeddings map List.concat list_sum fst].
  - intros H; inversion H; subst. rewrite !app_nil_r.
    split; [reflexivity|]. split; [reflexivity|]. split; [reflexivity|].
    split; [cbn; lia|]. split; [constructor|].
    intros p j Hp. destruct (Nat.ltb_spec p (nrows E')); [reflexivity | lia].
  - destruct (compute_embeddings ns wavs) as [emb ns1] eqn:Ec. cbn [fst snd].
    unfold vconcat. destruct (Nat.eqb_spec (ncols E) (ncols emb)) as [Hc|Hc];
      [|discriminate].
    intros H. apply IH in H. cbn [nrows ncols item] in H.
    destruct H as (-> & -> & Hcols & Hrows & Hall & Hitem).
    rewrite <- !app_assoc.
    split; [reflexivity|]. split; [reflexivity|]. split; [exact Hcols|].
    split; [rewrite Hrows; unfold list_sum; cbn [map fold_right]; lia|].
    split; [constructor; [symmetry; exact Hc | exact Hall]|].
    intros p j Hp. rewrite (Hitem p j Hp). cbn [stack_item].
    destruct (Nat.ltb_spec p (nrows E + nrows emb)) as [H1|H1];
      destruct (Nat.ltb_spec p (nrows E)) as [H2|H2]; try reflexivity; try lia.
    + destruct (Nat.ltb_spec (p - nrows E) (nrows emb)); [reflexivity | lia].
    + destruct (Nat.ltb_spec (p - nrows E) (nrows emb)); [lia|].
      f_equal. lia.
Qed.



(** X13: when [embedding_computation_loop] computes the statistics of a
    recording, the segment names are the ids of the batches in order, the
    model names are the same list, and the embeddings are those of the
    batches one under the other, [emb_dim] wide.  So when every batch
    yields one embedding per id, row [p] of [stat1] belongs to segment
    [p], which is what the label loop of [do_spec_clustering] relies on;
    [start] and [stop] hold [None], one per row, and [stat0] holds one
    row [[1.0]] per embedding: a column of ones, but an array of shape
    [(0,)] when there is no embedding at all. *)
Theorem embedding_loop_keeps_rows_aligned set_loader stat_file emb_dim st obj st' :
  lookup_stat stat_file (pickles st) = None ->
  embedding_computation_loop set_loader stat_file emb_dim st = (OK obj, st') ->
  let embs := batch_embeddings set_loader (reset_count (norm st)) in
  sb_segset obj = List.concat (map fst set_loader) /\
  sb_modelset obj = sb_segset obj /\
  ncols (sb_stat1 obj) = emb_dim /\
  nrows (sb_stat1 obj) = list_sum (map nrows embs) /\
  (forall p j, (p < nrows (sb_stat1 obj))%nat ->
     item (sb_stat1 obj) p j = stack_item embs p j) /\
  (Forall2 (fun batch e => nrows e = List.length (fst batch)) set_loader embs ->
   nrows (sb_stat1 obj) = List.length (sb_segset obj)) /\
  sb_start obj = repeat None (nrows (sb_stat1 obj)) /\
  sb_stop obj = sb_start obj /\
  sb_stat0 obj = repeat [1] (nrows (sb_stat1 obj)) /\
  np_shape (sb_stat0 obj)
  = (if (nrows (sb_stat1 obj) =? 0)%nat then [0%nat]
     else [nrows (sb_stat1 obj); 1%nat]).
Proof.
  intros Hmiss. unfold embedding_computation_loop. rewrite Hmiss.
  destruct (batches_loop set_loader [] [] (empty_rows emb_dim) (reset_count (norm st)))
    as [[[[ms ss] E]|e] ns] eqn:Eb; [|discriminate].
  intros H; inversion H; subst obj st'; clear H.
  destruct (batches_loop_ok _ _ _ _ _ _ _ _ _ Eb) as (-> & -> & Hc & Hr & _ & Hitem).
  cbn [sb_segset sb_modelset sb_stat1 sb_stat0 sb_start sb_stop app
       nrows ncols item empty_rows ones_column] in *.
  split; [reflexivity|]. split; [reflexivity|]. split; [exact Hc|].
  split; [exact Hr|]. split.
  - intros p j Hp. rewrite (Hitem p j Hp). cbn. rewrite Nat.sub_0_r. reflexivity.
  - split; [|split; [reflexivity|]; split; [reflexivity|]; split; [reflexivity|]].
    + intros Hall. rewrite Hr. clear -Hall.
      induction Hall as [|batch e tl etl Hbe _ IH]; [reflexivity|].
      cbn [map List.concat]. rewrite length_app, <- IH, <- Hbe.
      unfold list_sum. cbn [map fold_right]. reflexivity.
    + unfold ones_column. destruct (nrows E) as [|n]; [reflexivity|].
      cbn [repeat np_shape List.length Nat.eqb]. rewrite repeat_length. reflexivity.
Qed.

(** X14: statistics saved under a name are what every later call with
    that name returns, whatever loader and width it is given; such a call
    computes nothing: the saved files and the running statistics of the
    normalizer stay as they are. *)
Theorem embedding_loop_reuses_saved_statistics
    set_loader stat_file emb_dim st obj st' set_loader2 emb_dim2 :
  embedding_computation_loop set_loader stat_file emb_dim st = (OK obj, st') ->
  fst (embedding_computation_loop set_loader2 stat_file emb_dim2 st') = OK obj /\
  pickles (snd (embedding_computation_loop set_loader2 stat_file emb_dim2 st'))
  = pickles st' /\
  norm (snd (embedding_computation_loop set_loader2 stat_file emb_dim2 st')) = norm st'.
Proof.
  intros H.
  assert (Hhit : lookup_stat stat_file (pickles st') = Some obj).
  { unfold embedding_computation_loop in H.
    destruct (lookup_stat stat_file (pickles st)) as [saved|] eqn:El.
    - inversion H; subst. exact El.
    - destruct (batches_loop set_loader [] [] (empty_rows emb_dim) (reset_count (norm st)))
        as [[[[ms ss] E]|e] ns]; [|discriminate H].
      inversion H; subst. cbn [pickles lookup_stat]. rewrite String.eqb_refl.
      reflexivity. }
  unfold embedding_computation_loop. rewrite Hhit. repeat split.
Qed.


(** ** The sort of line 249 *)

Lemma insert_by_sorted {A : Type} (key : A -> Q) e l :
  StronglySorted (fun a b => key a <= key b) l ->
  StronglySorted (fun a b => key a <= key b) (insert_by key e l).
Proof.
  induction l as [|x tl IH]; intros Hs; cbn [insert_by].
  - constructor; constructor.
  - inversion Hs as [|? ? Htl Hx]; subst.
    destruct (Qle_bool (key e) (key x)) eqn:E.
    + apply Qle_bool_iff in E. constructor; [exact Hs|].
      constructor; [exact E|].
      apply Forall_forall. intros y Hy.
      apply Qle_trans with (key x); [exact E|].
      exact (proj1 (Forall_forall _ _) Hx y Hy).
    + assert (Hlt : key x <= key e).
      { destruct (Qlt_le_dec (key x) (key e)) as [Hl|Hl]; [apply Qlt_le_weak; exact Hl|].
        apply Qle_bool_iff in Hl. rewrite Hl in E. discriminate E. }
      constructor; [apply IH; exact Htl|].
      apply (Permutation_Forall (Permutation_sym (insert_by_perm key e tl))).
      constructor; assumption.
Qed.

Lemma insert_by_stable {A : Type} (key : A -> Q) (q : Q) e l :
  filter (fun a => Qeq_bool (key a) q) (insert_by key e l)
  = filter (fun a => Qeq_bool (key a) q) (e :: l).
Proof.
  induction l as [|x tl IH]; cbn [insert_by]; [reflexivity|].
  destruct (Qle_bool (key e) (key x)) eqn:E; [reflexivity|].
  cbn [filter] in *. rewrite IH.
  destruct (Qeq_bool (key x) q) eqn:Ex; destruct (Qeq_bool (key e) q) eqn:Ee;
    try reflexivity.
  apply Qeq_bool_iff in Ex. apply Qeq_bool_iff in Ee.
  assert (Hle : key e <= key x) by (rewrite Ex, Ee; apply Qle_refl).
  apply Qle_bool_iff in Hle. rewrite Hle in E. discriminate E.
Qed.

(** X16: the sort of line 249 puts the entries in ascending order of
    their start times, keeps every entry (the result is a rearrangement of
    the list), and is stable: the entries that start at one time stay in
    the order the label loop produced them. *)
Theorem sort_by_start_sorted_stable (lol : list entry) :
  Permutation (sort_by_start lol) lol /\
  StronglySorted (fun a b => sseg_start a <= sseg_start b) (sort_by_start lol) /\
  forall q,
    filter (fun a => Qeq_bool (sseg_start a) q) (sort_by_start lol)
    = filter (fun a => Qeq_bool (sseg_start a) q) lol.
Proof.
  unfold sort_by_start. split; [apply sort_by_perm|]. split.
  - induction lol as [|e tl IH]; cbn [sort_by fold_right]; [constructor|].
    apply insert_by_sorted. exact IH.
  - intros q. induction lol as [|e tl IH]; cbn [sort_by fold_right]; [reflexivity|].
    rewrite insert_by_stable. cbn [filter]. fold (sort_by sseg_start tl).
    rewrite IH. reflexivity.
Qed.

End Pipeline.

(** ** Reproducibility *)

Section Reproducibility.

Variable RandomState : Type.
Variable seed_state : Z -> RandomState.
Variable centroid_partition :
  ndarray -> nat -> RandomState -> nat -> list nat * RandomState.
Variable graph_is_connected : sparse -> bool.
Variable csgraph_laplacian : sparse -> bool -> sparse * list Q.
Variable set_diag : sparse -> Q -> bool -> sparse.
Variable eigsh : sparse -> nat -> result (list Q * ndarray).
Variable py_float : string -> option Q.
Variable merge_tolerance : Q.

Local Abbreviation run_perform_sc :=
  (perform_sc RandomState seed_state centroid_partition graph_is_connected
              csgraph_laplacian set_diag eigsh).

Local Abbreviation run_diarize :=
  (diarize RandomState seed_state centroid_partition graph_is_connected
           csgraph_laplacian set_diag eigsh py_float merge_tolerance).

(** C1, what the code does: the seed of the hyperparameters reaches the
    [Spec_Cluster] object and is never read, so a run is the same for any
    two seeds; the labels are drawn from the process-wide generator in the
    state the run finds it in, and the run leaves that generator in the
    state the partitioning left it in.  A second run in the same process
    therefore starts from another state than the first. *)
Theorem seed_unread_labels_from_process_generator
    (n_neighbors : Z) (include_self : bool) (seed1 seed2 : Z)
    (obj : StatObject) (rec : string) (k : nat) (w : world RandomState) :
  run_diarize (mkParams n_neighbors include_self seed1) obj rec k w
  = run_diarize (mkParams n_neighbors include_self seed2) obj rec k w /\
  (forall self X self' w',
     run_perform_sc (mkParams n_neighbors include_self seed1) self X w = (OK self', w') ->
     exists maps,
       labels_ self' = fst (centroid_partition maps (n_clusters self) (rng _ w) 10) /\
       rng _ w' = snd (centroid_partition maps (n_clusters self) (rng _ w) 10)).
Proof.
  split.
  - rewrite !diarize_run. reflexivity.
  - intros self X self' w' H.
    apply perform_sc_inv in H.
    destruct H as (aff & maps & _ & _ & Hl & Hr & _).
    exists maps. split; assumption.
Qed.

End Reproducibility.

(** The pipeline on the stand-in routines. *)
Abbreviation sample_world := (mkWorld nat 0%nat [] [] []).

Abbreviation sample_diarize :=
  (diarize nat Sample.seed_state Sample.centroid_partition Sample.graph_is_connected
           Sample.csgraph_laplacian Sample.set_diag Sample.eigsh Sample.py_float 0).

Abbreviation sample_embed :=
  (spectral_embedding_sb nat Sample.graph_is_connected Sample.csgraph_laplacian
                         Sample.set_diag Sample.eigsh).

Abbreviation sample_clustering :=
  (spectral_clustering_sb nat Sample.seed_state Sample.centroid_partition
     Sample.graph_is_connected Sample.csgraph_laplacian Sample.set_diag Sample.eigsh).

Abbreviation sample_embedding_of :=
  (embedding_of Sample.csgraph_laplacian Sample.set_diag Sample.eigsh).

(** ** The theorems at concrete inputs *)

(** Two runs in a row on the same recording with the same seed, count of
    clusters and count of neighbours: the second finds the generator where
    the first left it, and here gives the speakers other names. *)
Lemma seed_unread_labels_from_process_generator_witness :
  sample_diarize (mkParams 1 false 1) Sample.recording "ES2011a" 2 sample_world
  = sample_diarize (mkParams 1 false 2) Sample.recording "ES2011a" 2 sample_world /\
  is_ok (fst (sample_diarize sample_params Sample.recording "ES2011a" 2 sample_world))
  = true /\
  fst (sample_diarize sample_params Sample.recording "ES2011a" 2
         (snd (sample_diarize sample_params Sample.recording "ES2011a" 2 sample_world)))
  <> fst (sample_diarize sample_params Sample.recording "ES2011a" 2 sample_world).
Proof.
  split.
  - apply (seed_unread_labels_from_process_generator nat Sample.seed_state
             Sample.centroid_partition Sample.graph_is_connected
             Sample.csgraph_laplacian Sample.set_diag Sample.eigsh Sample.py_float 0
             1%Z false 1%Z 2%Z Sample.recording "ES2011a"%string 2%nat sample_world).
  - split; [reflexivity|]. vm_compute. intros H. discriminate H.
Defined.

Lemma reconcile_neighbours_apart_witness :
  reconcile 0 overlap_in = OK overlap_out /\ pairwise_apart overlap_out.
Proof.
  split; [reflexivity|].
  apply (reconcile_neighbours_apart 0 overlap_in overlap_out eq_refl).
  intros [|[|i]] Hi; cbn; [discriminate | discriminate | simpl in Hi; lia].
Defined.

Lemma distribute_overlap_splits_at_midpoint_witness :
  (1 < List.length overlap_in)%nat /\
  sseg_end (nth 0 (Diar.distribute_overlap overlap_in) dummy_entry) = (1 + 2) / 2 /\
  sseg_start (nth 1 (Diar.distribute_overlap overlap_in) dummy_entry) = (1 + 2) / 2.
Proof.
  assert (Hi : (1 < List.length overlap_in)%nat) by (simpl; lia).
  split; [exact Hi|].
  apply (distribute_overlap_splits_at_midpoint overlap_in 0 Hi).
  reflexivity.
Defined.

Lemma affinity_is_symmetrized_adjacency_witness :
  affinity_of sample_params Sample.embeddings = OK sample_affinity /\
  (forall i j, sp_entry sample_affinity i j == sp_entry sample_affinity j i) /\
  (forall i j, 0 <= sp_entry sample_affinity i j /\ sp_entry sample_affinity i j <= 1).
Proof.
  split; [reflexivity|].
  destruct (affinity_is_symmetrized_adjacency sample_params Sample.embeddings
              sample_affinity eq_refl) as (G & _ & _ & _ & Hsym & Hbound).
  split; assumption.
Defined.




Lemma affinity_builder_fails_on_bad_configuration_witness :
  affinity_of (mkParams 0 false 1234) Sample.embeddings = Raise ConfigurationError /\
  exists A, affinity_of sample_params Sample.embeddings = OK A.
Proof.
  split.
  - apply (affinity_builder_fails_on_bad_configuration (mkParams 0 false 1234)
             Sample.embeddings).
    left. simpl. lia.
  - apply (affinity_builder_fails_on_bad_configuration sample_params Sample.embeddings).
    simpl. lia.
Defined.

Lemma normalized_embedding_divided_before_sign_flip_witness :
  exists E w' vals dm quotient,
    sample_embed sample_affinity 1 true true sample_world = (OK E, w') /\
    Sample.eigsh (solver_input Sample.csgraph_laplacian Sample.set_diag sample_affinity true) 2
    = OK (vals, dm) /\
    (forall c i,
       item quotient c i
       = item (eigen_rows 2 dm) c i
         / nth i (degree_diag Sample.csgraph_laplacian sample_affinity true) 0) /\
    E = transpose (rows_slice 1 2 (SignFlip.deterministic_vector_sign_flip quotient)).
Proof.
  destruct (normalized_embedding_divided_before_sign_flip nat
              Sample.graph_is_connected Sample.csgraph_laplacian Sample.set_diag
              Sample.eigsh sample_affinity 1 true sample_world _ _ eq_refl)
    as (vals & dm & q & He & _ & Hq & HE).
  eexists; eexists; exists vals, dm, q.
  split; [reflexivity|]. split; [exact He|]. split; [|exact HE].
  apply Hq. unfold Sample.eigsh in He. cbn in He. inversion He. reflexivity.
Defined.

Lemma embedding_has_n_components_columns_witness :
  exists E w',
    sample_embed sample_affinity 1 true true sample_world = (OK E, w') /\
    nrows E = 3%nat /\ ncols E = 1%nat.
Proof.
  eexists; eexists. split; [reflexivity|].
  destruct (embedding_has_n_components_columns nat
              Sample.graph_is_connected Sample.csgraph_laplacian Sample.set_diag
              Sample.eigsh sample_affinity 1 true true sample_world _ _ eq_refl)
    as (Hr & Hc & _).
  - intros vals dm He. unfold Sample.eigsh in He. cbn in He. inversion He.
    repeat split.
  - split; assumption.
Defined.

Lemma disconnected_graph_warns_and_proceeds_witness :
  Sample.graph_is_connected split_affinity = false /\
  warnings _ (snd (sample_embed split_affinity 2 true false sample_world))
  = [graph_warning] /\
  exists E, fst (sample_embed split_affinity 2 true false sample_world) = OK E.
Proof.
  assert (Hdis : Sample.graph_is_connected split_affinity = false) by reflexivity.
  destruct (disconnected_graph_warns_and_proceeds nat
              Sample.graph_is_connected Sample.csgraph_laplacian Sample.set_diag
              Sample.eigsh split_affinity 2 true false sample_world Hdis)
    as [Hrun Hret].
  split; [exact Hdis|]. split.
  - rewrite Hrun. reflexivity.
  - eapply Hret; [reflexivity | intros _; reflexivity].
Defined.

Lemma label_loop_rec_id_lags_one_turn_witness :
  exists r lol,
    labels_to_boundaries Sample.py_float [0; 1]%nat
      ["ES2011a_0.0_2.0"; "ES2011b_1.0_3.0"]%string "IS1000a" = OK (r, lol) /\
    spkr_id (nth 0 lol dummy_entry) = "IS1000a_0"%string /\
    spkr_id (nth 1 lol dummy_entry) = "ES2011a_1"%string /\
    rec_id (nth 1 lol dummy_entry) = "ES2011b"%string /\
    r = "ES2011b"%string.
Proof.
  eexists; eexists. split; [reflexivity|].
  destruct (label_loop_rec_id_lags_one_turn Sample.py_float [0; 1]%nat
              ["ES2011a_0.0_2.0"; "ES2011b_1.0_3.0"]%string "IS1000a" _ _ eq_refl)
    as (_ & Hr & Hall).
  destruct (Hall 0%nat ltac:(simpl; lia)) as [H0 _].
  destruct (Hall 1%nat ltac:(simpl; lia)) as [H1 H1'].
  split; [exact H0|]. split; [exact H1|]. split; [exact H1'|exact Hr].
Defined.

(** ** The further properties at concrete inputs *)

(** Every path can be written to but those under [/readonly]. *)
Abbreviation sample_writable :=
  (fun f : string => negb (String.prefix "/readonly/" f)).

Abbreviation sample_do_spec_clustering :=
  (do_spec_clustering nat Sample.seed_state Sample.centroid_partition
     Sample.graph_is_connected Sample.csgraph_laplacian Sample.set_diag Sample.eigsh
     Sample.py_float 0 sample_params sample_writable).

Abbreviation sample_embeddings_for :=
  (fun (rec : string) (w : world nat) => (OK (SampleData.stat_of rec), w)).

(** [glob] lists the files written, each once. *)
Abbreviation sample_glob :=
  (fun (dir : string) (fs : list (string * list entry)) =>
     nodup string_dec (map fst fs)).

Abbreviation sample_diarize_dataset :=
  (diarize_dataset nat Sample.seed_state Sample.centroid_partition
     Sample.graph_is_connected Sample.csgraph_laplacian Sample.set_diag Sample.eigsh
     Sample.py_float 0 sample_params sample_writable sample_embeddings_for
     (fun _ _ => 2%nat) (fun _ => OK []) (OK tt) (fun _ => OK tt) sample_glob).

Abbreviation sample_prepare :=
  (prepare (fun _ => OK []) (OK tt)).

Abbreviation sample_score :=
  (fun (n : nat) (w : world nat) => (OK (nth (n - 1) SampleData.error_rates 0), w)).

Abbreviation sample_dev_tuner :=
  (dev_tuner nat sample_score (fun n _ => PyStr.str_of_nat n)).

Abbreviation sample_embedding_loop :=
  (embedding_computation_loop ndarray nat (fun _ => 0%nat) SampleData.compute).

Abbreviation empty_store := (mkStore nat [] 7%nat []).

Lemma label_loop_uniform_rec_id_witness :
  exists r lol,
    labels_to_boundaries Sample.py_float [0; 1; 0]%nat (segset Sample.recording)
                         "ES2011a" = OK (r, lol) /\
    r = "ES2011a"%string /\
    spkr_id (nth 1 lol dummy_entry) = "ES2011a_1"%string.
Proof.
  eexists; eexists. split; [reflexivity|].
  destruct (label_loop_uniform_rec_id Sample.py_float [0; 1; 0]%nat
              (segset Sample.recording) "ES2011a" _ _ eq_refl) as [Hr Hall].
  - intros [|[|[|i]]] Hi; try reflexivity. simpl in Hi. lia.
  - split; [exact Hr|]. apply (Hall 1%nat). simpl. lia.
Defined.

Lemma all_rec_ids_sorted_distinct_witness :
  Csv.all_rec_ids SampleData.csv_three = OK ["ES2011a"; "ES2011b"; "ES2011c"]%string /\
  StronglySorted str_lt ["ES2011a"; "ES2011b"; "ES2011c"]%string /\
  NoDup ["ES2011a"; "ES2011b"; "ES2011c"]%string.
Proof.
  split; [reflexivity|].
  destruct (all_rec_ids_sorted_distinct SampleData.csv_three
              ["ES2011a"; "ES2011b"; "ES2011c"]%string eq_refl) as (Hs & Hn & _).
  split; assumption.
Defined.

Lemma sort_str_order_irrelevant_witness :
  Csv.sort_str ["ES2011c"; "ES2011b"; "ES2011a"]%string
  = ["ES2011a"; "ES2011b"; "ES2011c"]%string.
Proof.
  apply (sort_str_order_irrelevant SampleData.csv_three
           ["ES2011a"; "ES2011b"; "ES2011c"]%string
           ["ES2011c"; "ES2011b"; "ES2011a"]%string eq_refl).
  - repeat constructor; cbn; intuition discriminate.
  - intros r. cbn. intuition.
Defined.

Lemma dev_tuner_returns_first_minimum_witness :
  exists w',
    sample_dev_tuner 4%nat sample_world = (OK 2%nat, w') /\
    (1 <= 2)%nat /\ (2 <= 4)%nat /\
    sample_dev_tuner 0%nat sample_world = (Raise ValueError, sample_world).
Proof.
  eexists. split; [reflexivity|].
  destruct (dev_tuner_returns_first_minimum nat sample_score
              (fun n _ => PyStr.str_of_nat n) 4%nat sample_world) as [H0 Hmin].
  destruct (Hmin 2%nat _ eq_refl) as (DER_list & _ & _ & H1 & H2 & _).
  split; [exact H1|]. split; [exact H2 | exact H0].
Defined.


Lemma diarize_dataset_one_file_per_recording_witness :
  fst (sample_diarize_dataset SampleData.csv_one "dev" "out" false "ref" 2%nat
         sample_world) = OK "out/sys_output.rttm"%string /\
  exists written cat,
    files _ (snd (sample_diarize_dataset SampleData.csv_one "dev" "out" false "ref"
                    2%nat sample_world))
    = written ++ [("out/sys_output.rttm"%string, cat)] /\
    map fst written = ["out/ES2011a.rttm"%string] /\
    NoDup (map fst written) /\
    ~ In "out/sys_output.rttm"%string (map fst written).
Proof.
  assert (Hfst : fst (sample_diarize_dataset SampleData.csv_one "dev" "out" false "ref"
                        2%nat sample_world) = OK "out/sys_output.rttm"%string)
    by (vm_compute; reflexivity).
  split; [exact Hfst|].
  destruct (diarize_dataset_one_file_per_recording nat Sample.seed_state
              Sample.centroid_partition Sample.graph_is_connected
              Sample.csgraph_laplacian Sample.set_diag Sample.eigsh Sample.py_float 0
              sample_params sample_writable sample_embeddings_for (fun _ _ => 2%nat)
              (fun _ => OK []) (OK tt) (fun _ => OK tt) sample_glob
              SampleData.csv_one "dev" "out" false "ref" 2%nat sample_world _ _
              (fun _ _ => eq_refl)
              (eq_trans (surjective_pairing _) (f_equal (fun r => (r, _)) Hfst)))
    as (ids & written & cat & Hids & _ & _ & Hfiles & Hnames & Hnodup & Hfresh).
  vm_compute in Hids. injection Hids as <-.
  exists written, cat. split; [exact Hfiles|]. split; [exact Hnames|].
  split; [exact Hnodup | exact Hfresh].
Defined.


Lemma embedding_loop_keeps_rows_aligned_witness :
  is_ok (fst (sample_embedding_loop SampleData.batches "ES2011a_xv_stat.pkl" 3%nat
                empty_store)) = true /\
  (exists obj,
     fst (sample_embedding_loop SampleData.batches "ES2011a_xv_stat.pkl" 3%nat
            empty_store) = OK obj /\
     sb_segset obj = ["a"; "b"; "c"]%string /\
     nrows (sb_stat1 obj) = List.length (sb_segset obj) /\
     ncols (sb_stat1 obj) = 3%nat /\
     np_shape (sb_stat0 obj) = [3; 1]%nat) /\
  (exists obj0,
     fst (sample_embedding_loop [] "none_xv_stat.pkl" 3%nat empty_store) = OK obj0 /\
     nrows (sb_stat1 obj0) = 0%nat /\
     np_shape (sb_stat0 obj0) = [0%nat]).
Proof.
  assert (Hok : is_ok (fst (sample_embedding_loop SampleData.batches
                              "ES2011a_xv_stat.pkl" 3%nat empty_store)) = true)
    by (vm_compute; reflexivity).
  assert (Hok0 : is_ok (fst (sample_embedding_loop [] "none_xv_stat.pkl" 3%nat
                               empty_store)) = true)
    by (vm_compute; reflexivity).
  split; [exact Hok|]. split.
  - destruct (sample_embedding_loop SampleData.batches "ES2011a_xv_stat.pkl" 3%nat
                empty_store) as [[obj|e] st'] eqn:E; [|discriminate Hok].
    destruct (embedding_loop_keeps_rows_aligned ndarray nat (fun _ => 0%nat)
                SampleData.compute SampleData.batches "ES2011a_xv_stat.pkl" 3%nat
                empty_store obj st' eq_refl E)
      as (Hseg & _ & Hcols & Hsum & _ & Hrows & _ & _ & _ & Hshape).
    exists obj. split; [reflexivity|].
    split; [exact Hseg|]. split; [apply Hrows; repeat constructor|].
    split; [exact Hcols|]. rewrite Hshape, Hsum. reflexivity.
  - destruct (sample_embedding_loop [] "none_xv_stat.pkl" 3%nat empty_store)
      as [[obj0|e] st'] eqn:E; [|discriminate Hok0].
    destruct (embedding_loop_keeps_rows_aligned ndarray nat (fun _ => 0%nat)
                SampleData.compute [] "none_xv_stat.pkl" 3%nat
                empty_store obj0 st' eq_refl E)
      as (_ & _ & _ & Hsum & _ & _ & _ & _ & _ & Hshape).
    exists obj0. split; [reflexivity|]. split; [exact Hsum|].
    rewrite Hshape, Hsum. reflexivity.
Defined.

Lemma embedding_loop_reuses_saved_statistics_witness :
  is_ok (fst (sample_embedding_loop SampleData.batches "ES2011a_xv_stat.pkl" 3%nat
                empty_store)) = true /\
  fst (sample_embedding_loop SampleData.bad_batches "ES2011a_xv_stat.pkl" 5%nat
         (snd (sample_embedding_loop SampleData.batches "ES2011a_xv_stat.pkl" 3%nat
                 empty_store)))
  = fst (sample_embedding_loop SampleData.batches "ES2011a_xv_stat.pkl" 3%nat
           empty_store).
Proof.
  assert (Hok : is_ok (fst (sample_embedding_loop SampleData.batches
                              "ES2011a_xv_stat.pkl" 3%nat empty_store)) = true)
    by (vm_compute; reflexivity).
  split; [exact Hok|].
  destruct (sample_embedding_loop SampleData.batches "ES2011a_xv_stat.pkl" 3%nat
              empty_store) as [[obj|e] st'] eqn:E; [|discriminate Hok].
  apply (embedding_loop_reuses_saved_statistics ndarray nat (fun _ => 0%nat)
           SampleData.compute SampleData.batches "ES2011a_xv_stat.pkl" 3%nat
           empty_store obj st' SampleData.bad_batches 5%nat E).
Defined.

